(** * figma-parser: the fig-kiwi container reader and the icon classifier

    A shallow embedding of three scripts of the repository:
    - [scripts/decode_kiwi.cjs]: prelude, version, chunk framing and the
      choice of decompressor for the message chunk;
    - [extract_vectors.cjs] (the second script held in
      [scripts/decode_kiwi.cjs], from line 126 on; line numbers below are
      those of that file): the node maps, the bounded search for vector
      descendants, the shape tree, the primary colour, the palette and the
      vector count;
    - [scripts/extract_hierarchy.cjs]: the same node maps and the sorted
      child traversal of [printTree].

    JavaScript numbers are modelled by [Z] where the code only handles
    integers (offsets, sizes, 32-bit bit operations, with the wrap-around
    written out) and by [Q] where the code handles fractional values
    (sizes, opacities, colour channels).  Every finite double is a
    rational, [Math.round] is exact on them, and a double is below the
    literal [0.01] exactly when it is below 1/100, so comparisons and
    [Math.round] are computed on the rational.  A product of two doubles
    is not always a double: [toDouble] rounds it to the nearest one, as
    the multiplication of [colorToHex] does, and the result of
    [Math.round] or [parseInt] is an [Integer], which also holds the
    infinities and [NaN]. *)

From Stdlib Require Import ZArith QArith Qround Qabs Lia List Ascii String HexadecimalString.
From Stdlib Require Import Sorted Permutation OrderedTypeEx Lqa.
From Stdlib.Strings Require Import Byte.
From stdpp Require Import base gmap strings list pretty.

Open Scope Z_scope.

(** ** Byte buffers ([Uint8Array] and [DataView]) *)

Abbreviation bytes := (list byte).

#[global] Instance byte_eq_decision : EqDecision byte :=
  fun x y =>
    match Byte.eqb x y as b return Byte.eqb x y = b -> Decision (x = y) with
    | true => fun H => left (Byte.byte_dec_bl x y H)
    | false => fun H => right (Byte.eqb_false H)
    end eq_refl.

Definition byteZ (b : byte) : Z := Z.of_N (Byte.to_N b).

Definition blen (buf : bytes) : Z := Z.of_nat (length buf).

(** [buf.slice(a, b)] for [0 <= a <= b]; the end is clamped to the buffer. *)
Definition slice (buf : bytes) (a b : Z) : bytes :=
  take (Z.to_nat (b - a)) (drop (Z.to_nat a) buf).

(** [dv.getUint32(off, true)]: four bytes, little endian; [None] stands for
    the [RangeError] thrown when the four bytes are not all inside the view. *)
Definition getUint32 (buf : bytes) (off : Z) : option Z :=
  if (0 <=? off) && (off + 4 <=? blen buf) then
    match drop (Z.to_nat off) buf with
    | b0 :: b1 :: b2 :: b3 :: _ =>
        Some (byteZ b0 + 2 ^ 8 * byteZ b1 + 2 ^ 16 * byteZ b2 + 2 ^ 24 * byteZ b3)
    | _ => None
    end
  else None.

(** ** decode_kiwi.cjs: prelude, version and chunks *)

(** The ASCII bytes of ['fig-kiwi']. *)
Definition FIG_KIWI_PRELUDE : bytes :=
  [x66; x69; x67; x2d; x6b; x69; x77; x69]%byte.

Definition ZSTD_MAGIC : Z := 0xFD2FB528.

Definition bytes_eqb (a b : bytes) : bool :=
  bool_decide (a = b).

(** The [while] loop of lines 62-71.  The result carries the chunks pushed
    so far and whether the loop left through the [break] that logs
    "Chunk size ... exceeds remaining data".  [fuel] bounds the number of
    iterations; [readChunks] below supplies enough of it. *)
Fixpoint chunkLoop (fuel : nat) (buf : bytes) (offset : Z) (chunks : list bytes)
  : option (list bytes * bool) :=
  match fuel with
  | O => None
  | S fuel' =>
      if offset + 4 <? blen buf then
        match getUint32 buf offset with
        | None => None
        | Some size =>
            let offset := offset + 4 in
            if offset + size >? blen buf then Some (chunks, true)
            else chunkLoop fuel' buf (offset + size)
                   (chunks ++ [slice buf offset (offset + size)])
        end
      else Some (chunks, false)
  end.

Definition readChunks (buf : bytes) : option (list bytes * bool) :=
  chunkLoop (S (length buf)) buf (blen FIG_KIWI_PRELUDE + 4) [].

(** How the script leaves its framing stage. *)
Inductive FormatError : Type :=
  | InvalidPrelude
  | VersionOutOfRange
  | InsufficientChunks.

Record Framed : Type := mkFramed {
  fr_version : Z;
  fr_chunks : list bytes;
  fr_truncated : bool
}.

(** Lines 49-78: prelude check, version, chunk loop, the [chunks.length < 2]
    exit.  [None] is only the loop running out of fuel. *)
Definition readFig (buf : bytes) : option (FormatError + Framed) :=
  if negb (bytes_eqb (slice buf 0 (blen FIG_KIWI_PRELUDE)) FIG_KIWI_PRELUDE)
  then Some (inl InvalidPrelude)
  else
    match getUint32 buf (blen FIG_KIWI_PRELUDE) with
    | None => Some (inl VersionOutOfRange)
    | Some version =>
        match readChunks buf with
        | None => None
        | Some (chunks, truncated) =>
            if (length chunks <? 2)%nat then Some (inl InsufficientChunks)
            else Some (inr (mkFramed version chunks truncated))
        end
    end.

(** ** decode_kiwi.cjs: which decompressor a chunk goes to *)

(** JavaScript's [ToInt32] and the 32-bit operators used by [isZstd]. *)
Definition toInt32 (z : Z) : Z := (z + 2 ^ 31) mod 2 ^ 32 - 2 ^ 31.
Definition js_shl (a k : Z) : Z := toInt32 (Z.shiftl (toInt32 a) (k mod 32)).
Definition js_or (a b : Z) : Z := toInt32 (Z.lor (toInt32 a) (toInt32 b)).
Definition js_ushr0 (a : Z) : Z := a mod 2 ^ 32.

(** An indexed read [chunk[i]] of a typed array: out of range it is
    [undefined], which the bit operators turn into 0. *)
Definition at_index (chunk : bytes) (i : nat) : Z :=
  match chunk !! i with
  | Some b => byteZ b
  | None => 0
  end.

(** [isZstd] (lines 93-97) together with the indices it reads, in order. *)
Definition isZstd_reads (chunk : bytes) : bool * list nat :=
  if blen chunk <? 4 then (false, [])
  else
    let magic :=
      js_or (js_or (js_or (at_index chunk 0) (js_shl (at_index chunk 1) 8))
                   (js_shl (at_index chunk 2) 16))
            (js_shl (at_index chunk 3) 24) in
    (js_ushr0 magic =? ZSTD_MAGIC, [0; 1; 2; 3]%nat).

Definition isZstd (chunk : bytes) : bool := fst (isZstd_reads chunk).

Inductive Codec : Type := DeflateRaw | Zstd.

(** Chunk 0 goes to [pako.inflateRaw] whatever it holds (line 82). *)
Definition schemaCodec (chunk : bytes) : Codec := DeflateRaw.

(** Chunk 1 goes to [fzstd.decompress] or [pako.inflateRaw] (lines 99-111). *)
Definition messageCodec (chunk : bytes) : Codec :=
  if isZstd chunk then Zstd else DeflateRaw.

(** The decompression stage with the two libraries as arguments; [fzstd] is
    optional ([require] inside [try]), and a zstd message without it ends
    the script. *)
Inductive DecompressError : Type := ZstdNotInstalled.

Definition decompressChunks {R : Type}
    (inflateRaw : bytes -> R) (fzstd : option (bytes -> R))
    (chunk0 chunk1 : bytes) : DecompressError + (R * (Codec * R)) :=
  let schemaRaw := inflateRaw chunk0 in
  if isZstd chunk1 then
    match fzstd with
    | None => inl ZstdNotInstalled
    | Some decompress => inr (schemaRaw, (Zstd, decompress chunk1))
    end
  else inr (schemaRaw, (DeflateRaw, inflateRaw chunk1)).

(** The framing the reader expects, used to state what it returns. *)
Definition byte_of_Z (z : Z) : byte :=
  match Byte.of_N (Z.to_N (z mod 256)) with
  | Some b => b
  | None => x00%byte
  end.

Definition le32 (n : Z) : bytes :=
  [byte_of_Z n; byte_of_Z (n / 2 ^ 8); byte_of_Z (n / 2 ^ 16); byte_of_Z (n / 2 ^ 24)].

Definition frame (chunk : bytes) : bytes := le32 (blen chunk) ++ chunk.

Definition frames (chunks : list bytes) : bytes := concat (map frame chunks).

Definition assemble (version : Z) (chunks : list bytes) : bytes :=
  FIG_KIWI_PRELUDE ++ le32 version ++ frames chunks.

(** ** extract_vectors.cjs and extract_hierarchy.cjs: the decoded records *)

Record Guid : Type := mkGuid { sessionID : N; localID : N }.

Record ParentIndex : Type := mkParentIndex {
  pi_guid : option Guid;
  pi_position : option string
}.

Record Color : Type := mkColor { c_r : option Q; c_g : option Q; c_b : option Q }.

Module Paint.
Record t : Type := mk {
  type : option string;
  color : option Color;
  opacity : option Q
}.
End Paint.

(** One element of [nodeChanges]; absent JSON fields are [None]. *)
Module Node.
Record t : Type := mk {
  guid : option Guid;
  parentIndex : option ParentIndex;
  type : string;
  name : option string;
  size : option (Q * Q);
  transform : option (Q * Q);   (* m02, m12 *)
  fillPaints : option (list Paint.t);
  strokePaints : option (list Paint.t);
  strokeWeight : option Q;
  opacity : option Q;
  vectorNetworkBlob : option N
}.
End Node.

(** ** Helpers *)

(** [Math.round]: the nearest integer, halves towards plus infinity. *)
Definition Math_round (x : Q) : Z := Qfloor (x + (1 # 2)).

Definition Qltb (x y : Q) : bool := negb (Qle_bool y x).

(** [v.toString(16).padStart(2, '0')] on an integer. *)
Definition toString16 (v : Z) : string :=
  if v <? 0 then "-" +:+ NilZero.string_of_uint (N.to_hex_uint (Z.to_N (- v)))
  else NilZero.string_of_uint (N.to_hex_uint (Z.to_N v)).

Definition padStart2 (s : string) : string :=
  match String.length s with
  | O => "00"
  | S O => "0" +:+ s
  | _ => s
  end.

(** *** Rounding to a double

    The value of an arithmetic operation on doubles is the exact result
    rounded to the nearest double (IEEE 754 binary64: 53 significant bits,
    ties to the even significand, exponents down to the subnormal range,
    an infinity from [2 ^ 1024] on). *)

(** [2 ^ k] for any integer [k]. *)
Definition pow2 (k : Z) : Q :=
  if 0 <=? k then inject_Z (2 ^ k) else 1 # Z.to_pos (2 ^ (- k)).

(** The exponent [e] with [2 ^ e <= |x| < 2 ^ (e + 1)], for [x] not zero. *)
Definition binade (x : Q) : Z :=
  let e := Z.log2 (Z.abs (Qnum x)) - Z.log2 (Zpos (Qden x)) in
  if Qle_bool (pow2 e) (Qabs x) then e else e - 1.

(** The nearest integer, halves to the even one. *)
Definition roundHalfEven (q : Q) : Z :=
  let f := Qfloor q in
  match (q - inject_Z f ?= 1 # 2)%Q with
  | Lt => f
  | Gt => f + 1
  | Eq => if Z.even f then f else f + 1
  end.

(** A double that is not [NaN]. *)
Inductive Double : Type :=
  | Dbl (q : Q)
  | DblInfinity (negative : bool).

(** The double nearest to [x]: a multiple of the unit in the last place of
    the binade of [x]. *)
Definition toDouble (x : Q) : Double :=
  if Qeq_bool x 0 then Dbl 0
  else
    let ulp := pow2 (Z.max (binade x) (-1022) - 52) in
    let r := Qred (inject_Z (roundHalfEven (x / ulp)) * ulp) in
    if Qle_bool (pow2 1024) (Qabs r) then DblInfinity (negb (Qle_bool 0 x))
    else Dbl r.

(** An integral number: what [Math.round] and [parseInt] return. *)
Inductive Integer : Type :=
  | NaN
  | Infinity (negative : bool)
  | Int (z : Z).

(** [v.toString(16)] on an integral number. *)
Definition numberToString16 (v : Integer) : string :=
  match v with
  | NaN => "NaN"
  | Infinity false => "Infinity"
  | Infinity true => "-Infinity"
  | Int z => toString16 z
  end.

(** [colorToHex]: [null] for an absent colour; a channel that is absent
    or zero counts as 0 ([c.r || 0]).  [channel] is
    [Math.round((c.r || 0) * 255)], the product rounded to a double before
    [Math.round] sees it. *)
Definition channel (c : option Q) : Integer :=
  match toDouble (match c with Some v => v | None => 0%Q end * 255) with
  | Dbl p => Int (Math_round p)
  | DblInfinity negative => Infinity negative
  end.

Definition colorToHex (c : option Color) : option string :=
  match c with
  | None => None
  | Some c =>
      let r := channel (c_r c) in
      let g := channel (c_g c) in
      let b := channel (c_b c) in
      Some ("#" +:+ String.concat "" (map (fun v => padStart2 (numberToString16 v)) [r; g; b]))
  end.

(** [guidKey]: the string [sessionID:localID], or [null]. *)
Definition guidKey (g : option Guid) : option string :=
  match g with
  | Some g => Some (pretty (sessionID g) +:+ ":" +:+ pretty (localID g))
  | None => None
  end.

Definition isTransparentBg (n : Node.t) : bool :=
  bool_decide (Node.type n = "ROUNDED_RECTANGLE")
  && match Node.opacity n with
     | Some o => Qltb o (1 # 100)
     | None => false
     end.

(** ** The lookup maps (both scripts build them the same way) *)

Record Graph : Type := mkGraph {
  nodeMap : gmap string Node.t;
  childrenMap : gmap string (list Node.t)
}.

Definition emptyGraph : Graph := mkGraph ∅ ∅.

(** The key of the parent a record names, when it names one. *)
Definition parentKey (n : Node.t) : option string :=
  match Node.parentIndex n with
  | Some pi => guidKey (pi_guid pi)
  | None => None
  end.

(** [childrenMap[key] || []] *)
Definition childrenOf (g : Graph) (key : string) : list Node.t :=
  default [] (childrenMap g !! key).

(** The body of [nodes.forEach(n => ...)]. *)
Definition addNode (g : Graph) (n : Node.t) : Graph :=
  let nm :=
    match guidKey (Node.guid n) with
    | Some key => <[key := n]> (nodeMap g)
    | None => nodeMap g
    end in
  let cm :=
    match parentKey n with
    | Some pk => <[pk := childrenOf g pk ++ [n]]> (childrenMap g)
    | None => childrenMap g
    end in
  mkGraph nm cm.

Definition buildGraph (nodes : list Node.t) : Graph :=
  fold_left addNode nodes emptyGraph.

(** ** extract_vectors.cjs: the shape tree *)

Record Fill : Type := mkFill { f_color : option string; f_opacity : Q }.
Record Stroke : Type := mkStroke { s_color : option string; s_width : Q }.

Module Shape.
Inductive t : Type := mk {
  type : string;
  name : string;
  guid : string;
  size : option (Z * Z);
  position : option (Z * Z);
  fills : list Fill;
  strokes : list Stroke;
  opacity : Q;
  hasBlob : bool;
  children : list t
}.
End Shape.

Definition truthyQ (q : option Q) : bool :=
  match q with
  | Some v => negb (Qeq_bool v 0)
  | None => false
  end.

Definition hasColor (p : Paint.t) : bool :=
  match Paint.color p with Some _ => true | None => false end.

Definition fillsOf (n : Node.t) : list Fill :=
  map (fun p => mkFill (colorToHex (Paint.color p))
                  (match Paint.opacity p with Some o => o | None => 1%Q end))
      (List.filter hasColor (default [] (Node.fillPaints n))).

Definition strokesOf (n : Node.t) : list Stroke :=
  map (fun p => mkStroke (colorToHex (Paint.color p))
                  (if truthyQ (Node.strokeWeight n)
                   then default 1%Q (Node.strokeWeight n) else 1%Q))
      (List.filter hasColor (default [] (Node.strokePaints n))).

(** The node object of [buildShapeTree] before its children are pushed. *)
Definition shapeOf (n : Node.t) (key : string) (children : list Shape.t) : Shape.t :=
  Shape.mk (Node.type n)
    (default "" (Node.name n))
    key
    (match Node.size n with
     | Some (x, y) => Some (Math_round x, Math_round y)
     | None => None
     end)
    (match Node.transform n with
     | Some (m02, m12) => Some (Math_round m02, Math_round m12)
     | None => None
     end)
    (fillsOf n)
    (strokesOf n)
    (default 1%Q (Node.opacity n))
    (match Node.vectorNetworkBlob n with
     | Some b => negb (b =? 0)%N
     | None => false
     end)
    children.

Section Children.
(** [children.forEach(c => ...)] of [buildShapeTree], given the recursive
    call; outer [None] is a call that did not return. *)
Variable build : string -> option (option Shape.t).

Fixpoint pushChildren (cs : list Node.t) (acc : list Shape.t)
  : option (list Shape.t) :=
  match cs with
  | [] => Some acc
  | c :: cs' =>
      match guidKey (Node.guid c) with
      | None => pushChildren cs' acc
      | Some ck =>
          match build ck with
          | None => None
          | Some None => pushChildren cs' acc
          | Some (Some child) => pushChildren cs' (acc ++ [child])
          end
      end
  end.
End Children.

(** [buildShapeTree(key, depth)].  The recursion of the source has no bound
    of its own ([depth] is passed along and never tested), so the model
    takes [fuel]: the outer [None] means that [fuel] nested calls were not
    enough, [Some None] is the [null] result. *)
Fixpoint buildShapeTree (fuel : nat) (g : Graph) (key : string) (depth : Z)
  : option (option Shape.t) :=
  match fuel with
  | O => None
  | S fuel' =>
      match nodeMap g !! key with
      | None => Some None
      | Some n =>
          if isTransparentBg n then Some None
          else
            match pushChildren (fun ck => buildShapeTree fuel' g ck (depth + 1))
                    (childrenOf g key) [] with
            | None => None
            | Some children => Some (Some (shapeOf n key children))
            end
      end
  end.

(** ** extract_vectors.cjs: primary colour, palette, vector count *)

(** JavaScript truthiness of a value that is a string or [null]. *)
Definition truthy (c : option string) : bool :=
  match c with
  | Some s => negb (bool_decide (s = ""))
  | None => false
  end.

Definition firstFillColor (fs : list Fill) : option string :=
  match fs with f :: _ => f_color f | [] => None end.

Definition firstStrokeColor (ss : list Stroke) : option string :=
  match ss with s :: _ => s_color s | [] => None end.

Definition nonEmpty {A : Type} (l : list A) : bool :=
  match l with [] => false | _ :: _ => true end.

Definition typeIs (ty : string) (t : Shape.t) : bool :=
  bool_decide (Shape.type t = ty).

(** [extractPrimaryColor] on a shape tree (the [null] argument is only
    guarded against and never passed).  The two [for ... of] loops leave
    at the first truthy colour. *)
Fixpoint extractPrimaryColor (shapeTree : Shape.t) : option string :=
  if typeIs "BOOLEAN_OPERATION" shapeTree && nonEmpty (Shape.fills shapeTree)
  then firstFillColor (Shape.fills shapeTree)
  else if typeIs "VECTOR" shapeTree && nonEmpty (Shape.fills shapeTree)
  then firstFillColor (Shape.fills shapeTree)
  else if typeIs "VECTOR" shapeTree && negb (nonEmpty (Shape.fills shapeTree))
          && nonEmpty (Shape.strokes shapeTree)
  then firstStrokeColor (Shape.strokes shapeTree)
  else if typeIs "ELLIPSE" shapeTree && nonEmpty (Shape.strokes shapeTree)
  then firstStrokeColor (Shape.strokes shapeTree)
  else
    let fix loop1 (cs : list Shape.t) : option string :=
      match cs with
      | [] => None
      | child :: cs' =>
          if typeIs "ROUNDED_RECTANGLE" child then loop1 cs'
          else
            let color := extractPrimaryColor child in
            if truthy color then color else loop1 cs'
      end in
    let fix loop2 (cs : list Shape.t) : option string :=
      match cs with
      | [] => None
      | child :: cs' =>
          let color := extractPrimaryColor child in
          if truthy color then color else loop2 cs'
      end in
    match loop1 (Shape.children shapeTree) with
    | Some color => Some color
    | None =>
        match loop2 (Shape.children shapeTree) with
        | Some color => Some color
        | None =>
            if nonEmpty (Shape.strokes shapeTree)
            then firstStrokeColor (Shape.strokes shapeTree)
            else None
        end
    end.

(** [if (c && !colors.includes(c)) colors.push(c)] *)
Definition pushColor (colors : list string) (c : option string) : list string :=
  match c with
  | Some s =>
      if truthy c && negb (bool_decide (s ∈ colors)) then colors ++ [s] else colors
  | None => colors
  end.

(** [collectColors(shapeTree, colors)]: the array is mutated in place, so
    it is threaded through. *)
Fixpoint collectColors (shapeTree : Shape.t) (colors : list string) : list string :=
  let colors := fold_left pushColor (map f_color (Shape.fills shapeTree)) colors in
  let colors := fold_left pushColor (map s_color (Shape.strokes shapeTree)) colors in
  fold_left (fun acc c => collectColors c acc) (Shape.children shapeTree) colors.

Fixpoint countVectors (shapeTree : Shape.t) : Z :=
  fold_left (fun count c => count + countVectors c) (Shape.children shapeTree)
    (if typeIs "VECTOR" shapeTree then 1 else 0).

(** ** extract_vectors.cjs: finding the icon containers *)

Definition isVectorLike (c : Node.t) : bool :=
  bool_decide (Node.type c = "VECTOR")
  || bool_decide (Node.type c = "BOOLEAN_OPERATION").

(** [hasVectorDescendant(key, maxDepth)]; [maxDepth] is a count that every
    call decrements by one (5 at the only outer call), hence a [nat]. *)
Fixpoint hasVectorDescendant (g : Graph) (key : string) (maxDepth : nat) : bool :=
  match maxDepth with
  | O => false
  | S maxDepth' =>
      (fix loop (cs : list Node.t) : bool :=
         match cs with
         | [] => false
         | c :: cs' =>
             if isVectorLike c then true
             else
               match guidKey (Node.guid c) with
               | Some ck =>
                   if hasVectorDescendant g ck maxDepth' then true else loop cs'
               | None => loop cs'
               end
         end) (childrenOf g key)
  end.

Record IconContainer : Type := mkIcon {
  ic_name : option string;
  ic_guid : string;
  ic_size : Z * Z;
  ic_parentName : option string;
  ic_primaryColor : option string;
  ic_allColors : list string;
  ic_vectorCount : Z;
  ic_shapeTree : Shape.t
}.

(** The body of the [forEach] over the [FRAME] records (lines 395-432):
    [Some None] is one of its early [return]s, [Some (Some ic)] the record
    it pushes, the outer [None] a shape tree that was never returned. *)
Definition iconContainer (fuel : nat) (g : Graph) (n : Node.t)
  : option (option IconContainer) :=
  match Node.size n with
  | None => Some None
  | Some (x, y) =>
      let w := Math_round x in
      let h := Math_round y in
      if (w >? 32) || (h >? 32) then Some None
      else
        match guidKey (Node.guid n) with
        | None => Some None
        | Some key =>
            if negb (hasVectorDescendant g key 5) then Some None
            else
              match buildShapeTree fuel g key 0 with
              | None => None
              | Some None => Some None
              | Some (Some shapeTree) =>
                  let primaryColor := extractPrimaryColor shapeTree in
                  let allColors := collectColors shapeTree [] in
                  let vectorCount := countVectors shapeTree in
                  let parent :=
                    match parentKey n with
                    | Some pk => nodeMap g !! pk
                    | None => None
                    end in
                  Some (Some (mkIcon (Node.name n) key (w, h)
                                (match parent with
                                 | Some p => Node.name p
                                 | None => None
                                 end)
                                primaryColor allColors vectorCount shapeTree))
              end
        end
  end.

Definition isFrame (n : Node.t) : bool := bool_decide (Node.type n = "FRAME").

Fixpoint eachFrame (fuel : nat) (g : Graph) (frames : list Node.t)
    (iconContainers : list IconContainer) : option (list IconContainer) :=
  match frames with
  | [] => Some iconContainers
  | n :: rest =>
      match iconContainer fuel g n with
      | None => None
      | Some None => eachFrame fuel g rest iconContainers
      | Some (Some ic) => eachFrame fuel g rest (iconContainers ++ [ic])
      end
  end.

(** The whole script up to its output: maps, then the icon containers. *)
Definition findIcons (fuel : nat) (nodes : list Node.t) : option (list IconContainer) :=
  eachFrame fuel (buildGraph nodes) (List.filter isFrame nodes) [].

(** ** extract_hierarchy.cjs: the sorted child traversal of [printTree] *)

Section Hierarchy.
(** [String.prototype.localeCompare], which the host's collation defines:
    negative, zero or positive. *)
Variable localeCompare : string -> string -> Z.

(** [a.parentIndex ? a.parentIndex.position : ''], then [|| '']. *)
Definition positionKey (a : Node.t) : string :=
  match Node.parentIndex a with
  | Some pi => default "" (pi_position pi)
  | None => ""
  end.

Definition comparePosition (a b : Node.t) : Z :=
  localeCompare (positionKey a) (positionKey b).

(** [Array.prototype.sort] is stable; with a consistent comparator its
    result is the one insertion from the right computes: an element goes
    after exactly those it compares greater than. *)
Fixpoint insertSorted (x : Node.t) (l : list Node.t) : list Node.t :=
  match l with
  | [] => [x]
  | y :: l' =>
      if 0 <? comparePosition x y then y :: insertSorted x l'
      else x :: y :: l'
  end.

Fixpoint sortChildren (l : list Node.t) : list Node.t :=
  match l with
  | [] => []
  | x :: l' => insertSorted x (sortChildren l')
  end.

(** Lines 97-103: the children [printTree] goes through, in its order. *)
Definition sortedChildren (g : Graph) (n : Node.t) : list Node.t :=
  match guidKey (Node.guid n) with
  | Some key => sortChildren (childrenOf g key)
  | None => []
  end.

(** [getNodeInfo] only formats one record. *)
Variable getNodeInfo : Node.t -> nat -> string.

Definition indentation (indent : nat) : string :=
  String.concat "" (repeat "  " indent).

(** [indent > depth].  [indent] counts up from 0; [depth] is [maxDepth],
    that is [parseInt(process.argv[4] || '8', 10)]: an integer, an
    infinity when the digits overflow, or [NaN] when the argument does not
    start with digits.  A comparison with [NaN] is false. *)
Definition beyond (indent : nat) (depth : Integer) : bool :=
  match depth with
  | NaN => false
  | Infinity negative => negative
  | Int d => d <? Z.of_nat indent
  end.

(** [children.forEach(child => printTree(child, indent + 1, depth))], given
    the recursive call: the lines of the children one after the other,
    unless one of the calls does not return. *)
Fixpoint forEachChild (visit : Node.t -> option (list string)) (children : list Node.t)
  : option (list string) :=
  match children with
  | [] => Some []
  | child :: rest =>
      match visit child with
      | None => None
      | Some lines =>
          match forEachChild visit rest with
          | None => None
          | Some lines' => Some (lines ++ lines')
          end
      end
  end.

(** [printTree(n, indent, depth)], returning the lines it pushes.  The
    only bound of the recursion is the test [indent > depth], hence
    [fuel], and [None] for a call that did not return. *)
Fixpoint printTree (fuel : nat) (g : Graph) (n : Node.t) (indent : nat) (depth : Integer)
  : option (list string) :=
  match fuel with
  | O => None
  | S fuel' =>
      if beyond indent depth then
        let cc :=
          match guidKey (Node.guid n) with
          | Some key => length (childrenOf g key)
          | None => O
          end in
        Some (if (0 <? cc)%nat
              then [indentation indent +:+ "... (" +:+ pretty cc +:+ " children)"]
              else [])
      else
        match forEachChild (fun child => printTree fuel' g child (indent + 1) depth)
                           (sortedChildren g n) with
        | None => None
        | Some lines => Some (getNodeInfo n indent :: lines)
        end
  end.
End Hierarchy.

(** ** Vocabulary for the statements *)

Definition keyOf (n : Node.t) : option string := guidKey (Node.guid n).

Definition hasParent (p : string) (n : Node.t) : bool :=
  bool_decide (parentKey n = Some p).

Definition hasKey (k : string) (n : Node.t) : bool :=
  bool_decide (keyOf n = Some k).

(** How often a key occurs among a list of records. *)
Definition occurrences (k : string) (l : list Node.t) : nat :=
  length (List.filter (hasKey k) l).

(** No key on two records of the input. *)
Definition uniqueIds (nodes : list Node.t) : Prop :=
  NoDup (omap keyOf nodes).

(** Parent links that go strictly down some rank: no cycles. *)
Definition ranked (nodes : list Node.t) (rank : string -> nat) : Prop :=
  forall c p k, c ∈ nodes -> parentKey c = Some p -> keyOf c = Some k ->
                (rank k < rank p)%nat.

(** The nodes of a shape tree, root first. *)
Fixpoint nodesOf (t : Shape.t) : list Shape.t :=
  t :: concat (map nodesOf (Shape.children t)).

(** A [VECTOR] or [BOOLEAN_OPERATION] record at most [d] parent-to-child
    hops below [key], over the input records. *)
Inductive vectorWithin (nodes : list Node.t) : string -> nat -> Prop :=
  | vw_child (key : string) (d : nat) (c : Node.t) :
      c ∈ nodes -> parentKey c = Some key -> isVectorLike c = true ->
      vectorWithin nodes key (S d)
  | vw_deeper (key : string) (d : nat) (c : Node.t) (ck : string) :
      c ∈ nodes -> parentKey c = Some key -> keyOf c = Some ck ->
      vectorWithin nodes ck d ->
      vectorWithin nodes key (S d).

(** ** Sample inputs *)

Definition sampleNode (ty : string) (id : N) (parent : option N)
    (position : option string) (size : option (Q * Q)) (opacity : option Q)
    (fills strokes : option (list Paint.t)) : Node.t :=
  Node.mk (Some (mkGuid 0 id))
    (match parent with
     | Some p => Some (mkParentIndex (Some (mkGuid 0 p)) position)
     | None => None
     end)
    ty None size None fills strokes None opacity None.

Definition solid (r g b : Z) : Paint.t :=
  Paint.mk (Some "SOLID")
    (Some (mkColor (Some (r # 255)) (Some (g # 255)) (Some (b # 255)))) None.

(** What every node of a built tree is made of. *)
Definition builtFrom (g : Graph) (s : Shape.t) : Prop :=
  exists n,
    nodeMap g !! Shape.guid s = Some n
    /\ isTransparentBg n = false
    /\ Shape.type s = Node.type n
    /\ Shape.fills s = fillsOf n
    /\ Shape.strokes s = strokesOf n
    /\ Forall (fun s' => exists c, c ∈ childrenOf g (Shape.guid s)
                                   /\ keyOf c = Some (Shape.guid s'))
              (Shape.children s).

Definition paintedWith (s : Shape.t) (col : string) : Prop :=
  Some col ∈ map f_color (Shape.fills s) \/ Some col ∈ map s_color (Shape.strokes s).

(** A 16x16 frame over a transparent background rectangle that has a
    vector below it. *)
Definition bgFrame : Node.t :=
  sampleNode "FRAME" 1 None None (Some (16, 16)%Q) None None None.
Definition bgRect : Node.t :=
  sampleNode "ROUNDED_RECTANGLE" 2 (Some 1%N) (Some "a") (Some (16, 16)%Q)
    (Some (1 # 10000)) (Some [solid 255 255 255]) None.
Definition bgVector : Node.t :=
  sampleNode "VECTOR" 3 (Some 2%N) (Some "a") (Some (8, 8)%Q) None
    (Some [solid 22 119 255]) None.
Definition iconOverBackground : list Node.t := [bgFrame; bgRect; bgVector].

(** A frame that names itself as its parent, with one vector child. *)
Definition loopFrame : Node.t :=
  sampleNode "FRAME" 1 (Some 1%N) (Some "a") (Some (16, 16)%Q) None None None.
Definition loopVector : Node.t :=
  sampleNode "VECTOR" 2 (Some 1%N) (Some "b") (Some (8, 8)%Q) None
    (Some [solid 22 119 255]) None.
Definition selfParentIcon : list Node.t := [loopFrame; loopVector].

(** A frame 32.4 wide with one vector child. *)
Definition wideFrame : Node.t :=
  sampleNode "FRAME" 1 None None (Some (324 # 10, 16)%Q) None None None.
Definition wideVector : Node.t :=
  sampleNode "VECTOR" 2 (Some 1%N) (Some "a") (Some (8, 8)%Q) None
    (Some [solid 22 119 255]) None.
Definition wideIcon : list Node.t := [wideFrame; wideVector].

(** A parent and one child recorded twice. *)
Definition twiceParent : Node.t :=
  sampleNode "FRAME" 1 None None (Some (16, 16)%Q) None None None.
Definition twiceChild : Node.t :=
  sampleNode "VECTOR" 2 (Some 1%N) (Some "a") (Some (8, 8)%Q) None None None.
Definition twiceChild' : Node.t :=
  sampleNode "VECTOR" 2 (Some 1%N) (Some "a") (Some (9, 9)%Q) None None None.
Definition recordedTwice : list Node.t := [twiceParent; twiceChild; twiceChild'].

(** A frame whose two vector children arrive with keys "b" then "a". *)
Definition orderFrame : Node.t :=
  sampleNode "FRAME" 1 None None (Some (16, 16)%Q) None None None.
Definition orderFirst : Node.t :=
  sampleNode "VECTOR" 2 (Some 1%N) (Some "b") (Some (8, 8)%Q) None None None.
Definition orderSecond : Node.t :=
  sampleNode "VECTOR" 3 (Some 1%N) (Some "a") (Some (8, 8)%Q) None None None.
Definition outOfOrder : list Node.t := [orderFrame; orderFirst; orderSecond].

(** ** The priority order of the primary colour, rule by rule *)

(** The first truthy result of a list of results. *)
Fixpoint firstTruthy (l : list (option string)) : option string :=
  match l with
  | [] => None
  | c :: l' => if truthy c then c else firstTruthy l'
  end.

Definition notRoundedRectangle (t : Shape.t) : bool :=
  negb (typeIs "ROUNDED_RECTANGLE" t).

(** Rules (5) to (8): the children without the rounded rectangles, then
    all children, then the node's own first stroke, then nothing. *)
Definition fromChildrenOrStroke (rec : Shape.t -> option string) (t : Shape.t)
  : option string :=
  match firstTruthy (map rec (List.filter notRoundedRectangle (Shape.children t))) with
  | Some color => Some color
  | None =>
      match firstTruthy (map rec (Shape.children t)) with
      | Some color => Some color
      | None =>
          match Shape.strokes t with
          | s :: _ => s_color s
          | [] => None
          end
      end
  end.

(** Rules (1) to (4), falling through to the rest; [rec] is the colour
    extracted from a child. *)
Definition primaryColorRules (rec : Shape.t -> option string) (t : Shape.t)
  : option string :=
  if bool_decide (Shape.type t = "BOOLEAN_OPERATION") then
    match Shape.fills t with
    | f :: _ => f_color f                                   (* rule 1 *)
    | [] => fromChildrenOrStroke rec t
    end
  else if bool_decide (Shape.type t = "VECTOR") then
    match Shape.fills t, Shape.strokes t with
    | f :: _, _ => f_color f                                (* rule 2 *)
    | [], s :: _ => s_color s                               (* rule 3 *)
    | [], [] => fromChildrenOrStroke rec t
    end
  else if bool_decide (Shape.type t = "ELLIPSE") then
    match Shape.strokes t with
    | s :: _ => s_color s                                   (* rule 4 *)
    | [] => fromChildrenOrStroke rec t
    end
  else fromChildrenOrStroke rec t.

Definition sampleShape (ty : string) (fills : list Fill) (strokes : list Stroke)
    (children : list Shape.t) : Shape.t :=
  Shape.mk ty "" "0:0" None None fills strokes 1%Q false children.

(** ** Sibling order *)

(** What [Array.prototype.sort] asks of its comparator. *)
Definition consistent (cmp : string -> string -> Z) : Prop :=
  (forall a b, 0 < cmp a b <-> cmp b a < 0)
  /\ (forall a b c, cmp a b <= 0 -> cmp b c <= 0 -> cmp a c <= 0).

Definition notAfter (cmp : string -> string -> Z) (a b : Node.t) : Prop :=
  comparePosition cmp a b <= 0.

Definition sameKey (cmp : string -> string -> Z) (a b : Node.t) : bool :=
  comparePosition cmp a b =? 0.

(** Comparison of strings by their characters' codes, first difference
    first: the lexicographic order. *)
Definition lexCompare (a b : string) : Z :=
  match String.compare a b with
  | Lt => -1
  | Eq => 0
  | Gt => 1
  end.

(** ** Icon candidates *)

(** The loop over the [FRAME] records pushes an icon for [n]. *)
Definition iconPushed (nodes : list Node.t) (n : Node.t) : Prop :=
  isFrame n = true
  /\ exists fuel ic, iconContainer fuel (buildGraph nodes) n = Some (Some ic).

(** A frame with a key, a size of rounded width and height at most 32, and
    a vector record within 5 hops below it. *)
Definition iconCandidate (nodes : list Node.t) (n : Node.t) : Prop :=
  Node.type n = "FRAME"
  /\ exists x y key,
       Node.size n = Some (x, y)
       /\ Math_round x <= 32 /\ Math_round y <= 32
       /\ keyOf n = Some key
       /\ vectorWithin nodes key 5.
(** ** Vocabulary for further statements *)

(** A string without the separator of [guidKey]. *)
Fixpoint noColon (s : string) : bool :=
  match s with
  | EmptyString => true
  | String c s' => negb (Ascii.eqb c ":") && noColon s'
  end.

(** A colour string as [colorToHex] writes it: present, starting with #. *)
Definition hexColour (c : option string) : Prop :=
  exists h, c = Some (String "#" h).

(** A frame with a blue vector and a dark stroked ellipse below it. *)
Definition paintedFrame : Node.t :=
  sampleNode "FRAME" 1 None None (Some (24, 24)%Q) None None None.
Definition paintedVector : Node.t :=
  sampleNode "VECTOR" 2 (Some 1%N) (Some "a") (Some (8, 8)%Q) None
    (Some [solid 22 119 255]) None.
Definition paintedEllipse : Node.t :=
  sampleNode "ELLIPSE" 3 (Some 1%N) (Some "b") (Some (8, 8)%Q) None
    None (Some [solid 7 8 40]).
Definition paintedIcon : list Node.t := [paintedFrame; paintedVector; paintedEllipse].
Definition paintedTree : Shape.t :=
  shapeOf paintedFrame "0:1"
    [shapeOf paintedVector "0:2" []; shapeOf paintedEllipse "0:3" []].
Definition paintedRecord : IconContainer :=
  mkIcon None "0:1" (24, 24) None (extractPrimaryColor paintedTree)
    (collectColors paintedTree []) (countVectors paintedTree) paintedTree.

(** A lower-case hexadecimal digit, and a string of them. *)
Definition isHexDigit (c : ascii) : bool :=
  existsb (Ascii.eqb c) (list_ascii_of_string "0123456789abcdef").

Fixpoint allHex (s : string) : bool :=
  match s with
  | EmptyString => true
  | String c s' => isHexDigit c && allHex s'
  end.

(** A colour channel that is absent or lies between 0 and 1. *)
Definition inUnit (c : option Q) : Prop :=
  match c with
  | Some v => (0 <= v <= 1)%Q
  | None => True
  end.

(** The two characters [padStart2 (toString16 v)] gives for a byte. *)
Definition twoHexDigits (v : Z) : bool :=
  match padStart2 (toString16 v) with
  | String a (String b EmptyString) => isHexDigit a && isHexDigit b
  | _ => false
  end.

(** ** extract_vectors.cjs: [collectVectors] *)

Record VectorInfo : Type := mkVectorInfo {
  v_guid : string;
  v_name : string;
  v_type : string;
  v_size : option (Z * Z);
  v_position : option (Z * Z);
  v_fills : list (option string);
  v_strokes : list (option string);
  v_hasBlob : bool;
  v_depth : Z
}.

(** [p.color ? colorToHex(p.color) : p.type] *)
Definition paintLabel (p : Paint.t) : option string :=
  match Paint.color p with
  | Some c => colorToHex (Some c)
  | None => Paint.type p
  end.

(** The entry pushed for a VECTOR record. *)
Definition vectorInfoOf (n : Node.t) (key : string) (depth : Z) : VectorInfo :=
  mkVectorInfo key
    (default "" (Node.name n))
    (Node.type n)
    (match Node.size n with
     | Some (x, y) => Some (Math_round x, Math_round y)
     | None => None
     end)
    (match Node.transform n with
     | Some (m02, m12) => Some (Math_round m02, Math_round m12)
     | None => None
     end)
    (map paintLabel (default [] (Node.fillPaints n)))
    (map paintLabel (default [] (Node.strokePaints n)))
    (match Node.vectorNetworkBlob n with
     | Some b => negb (b =? 0)%N
     | None => false
     end)
    depth.

Section CollectChildren.
(** [children.forEach(c => ... results.push(...collectVectors(ck, depth + 1)))],
    given the recursive call. *)
Variable collect : string -> option (list VectorInfo).

Fixpoint appendVectors (cs : list Node.t) (results : list VectorInfo)
  : option (list VectorInfo) :=
  match cs with
  | [] => Some results
  | c :: cs' =>
      match guidKey (Node.guid c) with
      | None => appendVectors cs' results
      | Some ck =>
          match collect ck with
          | None => None
          | Some found => appendVectors cs' (results ++ found)
          end
      end
  end.
End CollectChildren.

(** [collectVectors(key, depth)]; like [buildShapeTree] it recurses with no
    bound of its own, hence [fuel], and the outer [None] for a call that
    did not return. *)
Fixpoint collectVectors (fuel : nat) (g : Graph) (key : string) (depth : Z)
  : option (list VectorInfo) :=
  match fuel with
  | O => None
  | S fuel' =>
      match nodeMap g !! key with
      | None => Some []
      | Some n =>
          appendVectors (fun ck => collectVectors fuel' g ck (depth + 1))
            (childrenOf g key)
            (if bool_decide (Node.type n = "VECTOR")
             then [vectorInfoOf n key depth] else [])
      end
  end.
(** * Properties of the container reader *)

Example Math_round_half_up :
  Math_round (5 # 2) = 3 /\ Math_round (-5 # 2) = -2 /\ Math_round (324 # 10) = 32.
Proof. repeat split. Qed.

Example colorToHex_blue :
  colorToHex (Paint.color (solid 22 119 255)) = Some "#1677ff".
Proof. vm_compute. reflexivity. Qed.

Example guidKey_sample : guidKey (Some (mkGuid 12 345)) = Some "12:345".
Proof. vm_compute. reflexivity. Qed.

Example readFig_two_chunks :
  readFig (assemble 101 [[x01; x02]; [x03]]%byte)
  = Some (inr (mkFramed 101 [[x01; x02]; [x03]]%byte false)).
Proof. vm_compute. reflexivity. Qed.

Example readFig_bad_prelude :
  readFig [x66; x69; x67; x2d; x6b; x69; x77; x6a; x00; x00; x00; x00]%byte
  = Some (inl InvalidPrelude).
Proof. vm_compute. reflexivity. Qed.

Example isZstd_magic : isZstd [x28; xb5; x2f; xfd; x00]%byte = true.
Proof. vm_compute. reflexivity. Qed.

Section ByteFacts.

Lemma byteZ_range (b : byte) : 0 <= byteZ b < 256.
Proof.
  unfold byteZ. pose proof (Byte.to_N_bounded b). lia.
Qed.

Lemma byteZ_of_Z (z : Z) : byteZ (byte_of_Z z) = z mod 256.
Proof.
  unfold byteZ, byte_of_Z.
  assert (Hr : 0 <= z mod 256 < 256) by (apply Z.mod_pos_bound; lia).
  destruct (Byte.of_N (Z.to_N (z mod 256))) as [b|] eqn:E.
  - apply Byte.to_of_N in E. rewrite E. lia.
  - apply Byte.of_N_None_iff in E. lia.
Qed.

Lemma length_le32 (n : Z) : length (le32 n) = 4%nat.
Proof. reflexivity. Qed.

Lemma le32_value (n : Z) :
  0 <= n < 2 ^ 32 ->
  byteZ (byte_of_Z n) + 2 ^ 8 * byteZ (byte_of_Z (n / 2 ^ 8))
  + 2 ^ 16 * byteZ (byte_of_Z (n / 2 ^ 16))
  + 2 ^ 24 * byteZ (byte_of_Z (n / 2 ^ 24)) = n.
Proof.
  intros Hn. rewrite !byteZ_of_Z.
  change (2 ^ 8) with 256. change (2 ^ 16) with 65536.
  change (2 ^ 24) with 16777216. change (2 ^ 32) with 4294967296 in Hn.
  replace (n / 65536) with (n / 256 / 256)
    by (rewrite Z.div_div by lia; reflexivity).
  replace (n / 16777216) with (n / 256 / 256 / 256)
    by (rewrite !Z.div_div by lia; reflexivity).
  set (q1 := n / 256). set (q2 := q1 / 256). set (q3 := q2 / 256).
  pose proof (Z.div_mod n 256 ltac:(lia)) as E1. fold q1 in E1.
  pose proof (Z.div_mod q1 256 ltac:(lia)) as E2. fold q2 in E2.
  pose proof (Z.div_mod q2 256 ltac:(lia)) as E3. fold q3 in E3.
  pose proof (Z.mod_pos_bound n 256 ltac:(lia)).
  pose proof (Z.mod_pos_bound q1 256 ltac:(lia)).
  pose proof (Z.mod_pos_bound q2 256 ltac:(lia)).
  assert (0 <= q3 < 256).
  { subst q3 q2 q1. split.
    - repeat apply Z.div_pos; lia.
    - repeat (apply Z.div_lt_upper_bound; [lia|]). lia. }
  rewrite (Z.mod_small q3 256) by lia.
  clearbody q1 q2 q3. lia.
Qed.

(** Reading back a length field wherever it sits in the buffer. *)
Lemma getUint32_le32 (pre post : bytes) (n : Z) :
  0 <= n < 2 ^ 32 ->
  getUint32 (pre ++ le32 n ++ post) (blen pre) = Some n.
Proof.
  intros Hn. unfold getUint32, blen.
  rewrite !length_app, length_le32.
  assert (H1 : (0 <=? Z.of_nat (length pre)) = true) by (apply Z.leb_le; lia).
  assert (H2 : (Z.of_nat (length pre) + 4
                <=? Z.of_nat (length pre + (4 + length post))) = true)
    by (apply Z.leb_le; lia).
  rewrite H1, H2. simpl andb. cbv iota.
  rewrite Nat2Z.id, drop_app_length.
  cbn [le32 app]. f_equal. apply le32_value. exact Hn.
Qed.

Lemma getUint32_in_range (buf : bytes) (off : Z) :
  0 <= off -> off + 4 <= blen buf ->
  exists size, getUint32 buf off = Some size /\ 0 <= size.
Proof.
  intros H0 H4. unfold getUint32.
  assert (E1 : (0 <=? off) = true) by (apply Z.leb_le; lia).
  assert (E2 : (off + 4 <=? blen buf) = true) by (apply Z.leb_le; lia).
  rewrite E1, E2. cbn [andb].
  assert (Hl : (4 <= length (drop (Z.to_nat off) buf))%nat).
  { rewrite length_drop. unfold blen in H4. lia. }
  destruct (drop (Z.to_nat off) buf) as [|b0 [|b1 [|b2 [|b3 l]]]];
    cbn in Hl; try lia.
  eexists. split; [reflexivity|].
  pose proof (byteZ_range b0). pose proof (byteZ_range b1).
  pose proof (byteZ_range b2). pose proof (byteZ_range b3). lia.
Qed.

End ByteFacts.

(** The loop returns whatever the buffer holds: every iteration moves the
    offset forward by at least four bytes. *)
Lemma chunkLoop_returns (fuel : nat) (buf : bytes) (offset : Z) (chunks : list bytes) :
  0 <= offset ->
  (0 < fuel)%nat ->
  blen buf - offset < Z.of_nat fuel ->
  is_Some (chunkLoop fuel buf offset chunks).
Proof.
  revert offset chunks.
  induction fuel as [|fuel IH]; intros offset chunks H0 Hpos Hf; [lia|].
  cbn [chunkLoop].
  destruct (offset + 4 <? blen buf) eqn:Hlt; [|eauto].
  apply Z.ltb_lt in Hlt.
  destruct (getUint32_in_range buf offset) as (size & -> & Hs); [lia..|].
  cbv zeta.
  destruct (offset + 4 + size >? blen buf) eqn:Hgt; [eauto|].
  assert (offset + 4 + size <= blen buf) by lia.
  apply IH; lia.
Qed.

Lemma readChunks_returns (buf : bytes) : is_Some (readChunks buf).
Proof.
  unfold readChunks. apply chunkLoop_returns.
  - unfold blen. lia.
  - lia.
  - unfold blen. cbn [length FIG_KIWI_PRELUDE]. lia.
Qed.

(** The framing stage always ends: with an error or with chunks. *)
Lemma readFig_returns (buf : bytes) : is_Some (readFig buf).
Proof.
  unfold readFig.
  destruct (negb _); [eauto|].
  destruct (getUint32 buf _); [|eauto].
  destruct (readChunks_returns buf) as [[chunks truncated] ->].
  destruct (length chunks <? 2)%nat; eauto.
Qed.

(** ** Walking over well-framed chunks *)

Lemma blen_app (a b : bytes) : blen (a ++ b) = blen a + blen b.
Proof. unfold blen. rewrite length_app. lia. Qed.

Lemma blen_le32 (n : Z) : blen (le32 n) = 4.
Proof. reflexivity. Qed.

Lemma blen_nonneg (a : bytes) : 0 <= blen a.
Proof. unfold blen. lia. Qed.

Lemma slice_middle (pre mid post : bytes) :
  slice (pre ++ mid ++ post) (blen pre) (blen pre + blen mid) = mid.
Proof.
  unfold slice, blen.
  rewrite Nat2Z.id, drop_app_length.
  replace (Z.to_nat (Z.of_nat (length pre) + Z.of_nat (length mid) - Z.of_nat (length pre)))
    with (length mid) by lia.
  apply take_app_length.
Qed.

(** One iteration over a complete chunk that is followed by at least one
    more byte or is itself not empty. *)
Lemma chunkLoop_step (fuel : nat) (pre c post : bytes) (acc : list bytes) :
  blen c < 2 ^ 32 ->
  0 < blen c + blen post ->
  chunkLoop (S fuel) (pre ++ frame c ++ post) (blen pre) acc
  = chunkLoop fuel (pre ++ frame c ++ post) (blen pre + blen (frame c)) (acc ++ [c]).
Proof.
  intros Hc Hmore. cbn [chunkLoop].
  assert (Hlen : blen (pre ++ frame c ++ post) = blen pre + 4 + blen c + blen post).
  { unfold frame. rewrite !blen_app, blen_le32. lia. }
  rewrite Hlen.
  assert (E : (blen pre + 4 <? blen pre + 4 + blen c + blen post) = true)
    by (apply Z.ltb_lt; lia).
  rewrite E.
  assert (G : getUint32 (pre ++ frame c ++ post) (blen pre) = Some (blen c)).
  { unfold frame. rewrite <- (app_assoc (le32 _)).
    apply getUint32_le32. pose proof (blen_nonneg c). lia. }
  rewrite G. cbv zeta.
  assert (E2 : (blen pre + 4 + blen c >? blen pre + 4 + blen c + blen post) = false).
  { pose proof (blen_nonneg post). rewrite Z.gtb_ltb. apply Z.ltb_ge. lia. }
  rewrite E2.
  assert (S1 : slice (pre ++ frame c ++ post) (blen pre + 4) (blen pre + 4 + blen c) = c).
  { unfold frame. rewrite <- (app_assoc (le32 _)), (app_assoc pre).
    replace (blen pre + 4) with (blen (pre ++ le32 (blen c)))
      by (rewrite blen_app, blen_le32; reflexivity).
    apply slice_middle. }
  rewrite S1.
  replace (blen pre + blen (frame c)) with (blen pre + 4 + blen c); [reflexivity|].
  unfold frame. rewrite blen_app, blen_le32. lia.
Qed.

(** The loop goes through a run of complete chunks, as long as the last of
    them is followed by a byte or is not empty. *)
Lemma chunkLoop_frames (cs : list bytes) :
  forall (fuel : nat) (pre tail : bytes) (acc : list bytes),
    Forall (fun c => blen c < 2 ^ 32) cs ->
    (tail <> [] \/ forall c, last cs = Some c -> c <> []) ->
    chunkLoop (length cs + fuel) (pre ++ frames cs ++ tail) (blen pre) acc
    = chunkLoop fuel (pre ++ frames cs ++ tail) (blen pre + blen (frames cs)) (acc ++ cs).
Proof.
  induction cs as [|c cs IH]; intros fuel pre tail acc Hsz Hlast.
  - cbn. rewrite Z.add_0_r, app_nil_r. reflexivity.
  - apply Forall_cons in Hsz as [Hc Hsz].
    change (frames (c :: cs)) with (frame c ++ frames cs).
    cbn [length Nat.add].
    rewrite <- (app_assoc (frame c)).
    rewrite chunkLoop_step; [| exact Hc |].
    + replace (pre ++ frame c ++ frames cs ++ tail)
        with ((pre ++ frame c) ++ frames cs ++ tail)
        by (rewrite <- app_assoc; reflexivity).
      rewrite <- blen_app.
      rewrite IH; [| exact Hsz |].
      * rewrite !blen_app, <- !app_assoc. cbn [app].
        rewrite Z.add_assoc. reflexivity.
      * destruct Hlast as [Ht | Hl]; [left; exact Ht|].
        right. intros c' Hc'. apply Hl.
        destruct cs as [|c2 cs']; [discriminate|]. exact Hc'.
    + (* something follows the length field of [c] *)
      rewrite blen_app.
      pose proof (blen_nonneg c). pose proof (blen_nonneg tail).
      pose proof (blen_nonneg (frames cs)).
      destruct cs as [|c2 cs'].
      * cbn [frames map concat] in *.
        destruct Hlast as [Ht | Hl].
        -- destruct tail; [congruence|]. unfold blen in *. cbn [length] in *. lia.
        -- specialize (Hl c eq_refl). destruct c; [congruence|].
           unfold blen in *. cbn [length] in *. lia.
      * change (frames (c2 :: cs')) with (frame c2 ++ frames cs') in *.
        unfold frame at 1. rewrite !blen_app, blen_le32.
        pose proof (blen_nonneg c2). pose proof (blen_nonneg (frames cs')). lia.
Qed.

(** The loop stops without a word once at most four bytes are left. *)
Lemma chunkLoop_end (fuel : nat) (buf : bytes) (offset : Z) (acc : list bytes) :
  blen buf <= offset + 4 ->
  chunkLoop (S fuel) buf offset acc = Some (acc, false).
Proof.
  intros H. cbn [chunkLoop].
  assert (E : (offset + 4 <? blen buf) = false) by (apply Z.ltb_ge; lia).
  rewrite E. reflexivity.
Qed.

(** A length field that promises more than what follows it, with at least
    one byte following: the loop logs and leaves through [break]. *)
Lemma chunkLoop_truncated (fuel : nat) (pre rest : bytes) (L : Z) (acc : list bytes) :
  0 <= L < 2 ^ 32 ->
  rest <> [] ->
  blen rest < L ->
  chunkLoop (S fuel) (pre ++ le32 L ++ rest) (blen pre) acc = Some (acc, true).
Proof.
  intros HL Hne Hlt. cbn [chunkLoop].
  rewrite !blen_app, blen_le32.
  assert (0 < blen rest).
  { destruct rest; [congruence|]. unfold blen. cbn [length]. lia. }
  assert (E : (blen pre + 4 <? blen pre + (4 + blen rest)) = true)
    by (apply Z.ltb_lt; lia).
  rewrite E, getUint32_le32 by exact HL. cbv zeta.
  assert (E2 : (blen pre + 4 + L >? blen pre + (4 + blen rest)) = true).
  { rewrite Z.gtb_ltb. apply Z.ltb_lt. lia. }
  rewrite E2. reflexivity.
Qed.

Lemma length_frames_ge (cs : list bytes) : (4 * length cs <= length (frames cs))%nat.
Proof.
  induction cs as [|c cs IH]; [cbn; lia|].
  change (frames (c :: cs)) with (frame c ++ frames cs).
  unfold frame. rewrite !length_app, length_le32. cbn [length]. lia.
Qed.

(** What the script does with a buffer that starts with the prelude, a
    version and a run of complete chunks. *)
Lemma readFig_framed (version : Z) (cs : list bytes) (tail : bytes) :
  0 <= version < 2 ^ 32 ->
  Forall (fun c => blen c < 2 ^ 32) cs ->
  (tail <> [] \/ forall c, last cs = Some c -> c <> []) ->
  exists fuel,
    readFig (assemble version cs ++ tail)
    = match chunkLoop (S fuel) (assemble version cs ++ tail)
              (blen (FIG_KIWI_PRELUDE ++ le32 version) + blen (frames cs)) cs with
      | None => None
      | Some (chunks, truncated) =>
          if (length chunks <? 2)%nat then Some (inl InsufficientChunks)
          else Some (inr (mkFramed version chunks truncated))
      end.
Proof.
  intros Hv Hsz Hlast.
  set (buf := assemble version cs ++ tail).
  assert (Hbuf : buf = (FIG_KIWI_PRELUDE ++ le32 version) ++ frames cs ++ tail).
  { unfold buf, assemble. rewrite <- !app_assoc. reflexivity. }
  assert (Hlen : (length cs <= length buf)%nat).
  { rewrite Hbuf, !length_app. pose proof (length_frames_ge cs). lia. }
  exists (length buf - length cs)%nat.
  unfold readFig.
  assert (P : bytes_eqb (slice buf 0 (blen FIG_KIWI_PRELUDE)) FIG_KIWI_PRELUDE = true).
  { unfold bytes_eqb. apply bool_decide_eq_true.
    unfold buf, assemble. rewrite <- !app_assoc. reflexivity. }
  rewrite P. cbn [negb].
  assert (V : getUint32 buf (blen FIG_KIWI_PRELUDE) = Some version).
  { unfold buf, assemble. rewrite <- !app_assoc.
    apply getUint32_le32. exact Hv. }
  rewrite V.
  unfold readChunks.
  replace (S (length buf)) with (length cs + S (length buf - length cs))%nat by lia.
  replace (blen FIG_KIWI_PRELUDE + 4) with (blen (FIG_KIWI_PRELUDE ++ le32 version))
    by reflexivity.
  clearbody buf. subst buf.
  rewrite chunkLoop_frames by assumption.
  cbn [app]. reflexivity.
Qed.

(** Framing round trip, for chunk lists that do not end in an empty chunk. *)
Lemma readFig_assemble (version : Z) (chunks : list bytes) :
  0 <= version < 2 ^ 32 ->
  Forall (fun c => blen c < 2 ^ 32) chunks ->
  (forall c, last chunks = Some c -> c <> []) ->
  readFig (assemble version chunks)
  = Some (if (length chunks <? 2)%nat then inl InsufficientChunks
          else inr (mkFramed version chunks false)).
Proof.
  intros Hv Hsz Hlast.
  destruct (readFig_framed version chunks [] Hv Hsz (or_intror Hlast)) as [fuel E].
  rewrite app_nil_r in E. rewrite E.
  rewrite chunkLoop_end.
  - destruct (length chunks <? 2)%nat; reflexivity.
  - unfold assemble. rewrite !app_assoc, !blen_app. lia.
Qed.

(** A trailing empty chunk is never returned. *)
Lemma readFig_trailing_empty (version : Z) (chunks : list bytes) :
  0 <= version < 2 ^ 32 ->
  Forall (fun c => blen c < 2 ^ 32) chunks ->
  readFig (assemble version (chunks ++ [[]]))
  = Some (if (length chunks <? 2)%nat then inl InsufficientChunks
          else inr (mkFramed version chunks false)).
Proof.
  intros Hv Hsz.
  assert (A : assemble version (chunks ++ [[]]) = assemble version chunks ++ le32 0).
  { unfold assemble, frames. rewrite map_app, concat_app. cbn [map concat].
    unfold frame at 2. cbn [blen length Z.of_nat].
    rewrite !app_nil_r, <- !app_assoc. reflexivity. }
  rewrite A.
  destruct (readFig_framed version chunks (le32 0) Hv Hsz) as [fuel E].
  { left. discriminate. }
  rewrite E, chunkLoop_end.
  - destruct (length chunks <? 2)%nat; reflexivity.
  - unfold assemble. rewrite !app_assoc, !blen_app, !blen_le32. lia.
Qed.

(** C3 (trailing empty chunk): the buffer assembled from version 1 and the
    chunks [01], [02] and the empty chunk is read back as two chunks only;
    the loop condition [offset + 4 < buf.length] does not enter the
    iteration for a length field that ends the buffer. *)
Theorem roundtrip_loses_trailing_empty_chunk :
  readFig (assemble 1 [[x01]; [x02]; []]%byte)
  = Some (inr (mkFramed 1 [[x01]; [x02]]%byte false))
  /\ fr_chunks (mkFramed 1 [[x01]; [x02]]%byte false) <> [[x01]; [x02]; []]%byte.
Proof.
  split.
  - apply (readFig_trailing_empty 1 [[x01]; [x02]]%byte); [lia|].
    repeat constructor.
  - discriminate.
Qed.

(** After a valid prelude and version and the complete chunks [cs], a
    length field [L] followed by fewer than [L] bytes ends the reading
    with exactly [cs]; the loop leaves through the [break] that logs the
    truncation only when at least one byte follows the length field. *)
Lemma readFig_truncated (version : Z) (cs : list bytes) (L : Z) (rest : bytes) :
  0 <= version < 2 ^ 32 ->
  Forall (fun c => blen c < 2 ^ 32) cs ->
  0 <= L < 2 ^ 32 ->
  blen rest < L ->
  readFig (assemble version cs ++ le32 L ++ rest)
  = Some (if (length cs <? 2)%nat then inl InsufficientChunks
          else inr (mkFramed version cs (nonEmpty rest))).
Proof.
  intros Hv Hsz HL Hrest.
  destruct (readFig_framed version cs (le32 L ++ rest) Hv Hsz) as [fuel E].
  { left. discriminate. }
  rewrite E. clear E.
  assert (B : assemble version cs ++ le32 L ++ rest
              = ((FIG_KIWI_PRELUDE ++ le32 version) ++ frames cs) ++ le32 L ++ rest).
  { unfold assemble. rewrite <- !app_assoc. reflexivity. }
  rewrite B, <- blen_app.
  destruct rest as [|b rest].
  - rewrite chunkLoop_end.
    + destruct (length cs <? 2)%nat; reflexivity.
    + rewrite !blen_app, !blen_le32. change (blen []) with 0. lia.
  - rewrite chunkLoop_truncated by (try discriminate; assumption).
    destruct (length cs <? 2)%nat; reflexivity.
Qed.

(** With a valid prelude and a version the run fails exactly when fewer
    than two chunks were read. *)
Lemma readFig_insufficient_iff (buf : bytes) (version : Z) :
  slice buf 0 (blen FIG_KIWI_PRELUDE) = FIG_KIWI_PRELUDE ->
  getUint32 buf (blen FIG_KIWI_PRELUDE) = Some version ->
  exists chunks truncated,
    readChunks buf = Some (chunks, truncated)
    /\ (readFig buf = Some (inl InsufficientChunks) <-> (length chunks < 2)%nat)
    /\ (readFig buf = Some (inr (mkFramed version chunks truncated))
        <-> (2 <= length chunks)%nat).
Proof.
  intros Hp Hv.
  destruct (readChunks_returns buf) as [[chunks truncated] Hc].
  exists chunks, truncated. split; [exact Hc|].
  unfold readFig. unfold bytes_eqb.
  rewrite bool_decide_eq_true_2 by exact Hp. cbn [negb].
  rewrite Hv, Hc.
  destruct (length chunks <? 2)%nat eqn:El.
  - apply Nat.ltb_lt in El. split; split; intros; try lia; try reflexivity; discriminate.
  - apply Nat.ltb_ge in El. split; split; intros; try lia; try reflexivity; discriminate.
Qed.

(** C8 (truncated chunk), at a length field that ends the buffer: after
    version 7 and the complete chunks [0a] and [0b 0c], a length field
    announcing 5 bytes with nothing after it is not reported.  The loop
    condition [offset + 4 < buf.length] does not enter the iteration that
    would compare the length with what is left, so the run gives the two
    chunks and no truncation, exactly as for the buffer that ends after
    the second chunk; with one byte after the length field the truncation
    is reported. *)
Theorem truncated_length_field_at_end_unreported :
  readFig (assemble 7 [[x0a]; [x0b; x0c]]%byte ++ le32 5)
  = Some (inr (mkFramed 7 [[x0a]; [x0b; x0c]]%byte false))
  /\ readFig (assemble 7 [[x0a]; [x0b; x0c]]%byte)
     = Some (inr (mkFramed 7 [[x0a]; [x0b; x0c]]%byte false))
  /\ readFig (assemble 7 [[x0a]; [x0b; x0c]]%byte ++ le32 5 ++ [x0d]%byte)
     = Some (inr (mkFramed 7 [[x0a]; [x0b; x0c]]%byte true)).
Proof.
  split; [|split].
  - rewrite <- (app_nil_r (le32 5)).
    apply (readFig_truncated 7 [[x0a]; [x0b; x0c]]%byte 5 []).
    + lia.
    + repeat constructor.
    + lia.
    + reflexivity.
  - apply (readFig_assemble 7 [[x0a]; [x0b; x0c]]%byte).
    + lia.
    + repeat constructor.
    + intros c [= <-]. discriminate.
  - apply (readFig_truncated 7 [[x0a]; [x0b; x0c]]%byte 5 [x0d]%byte).
    + lia.
    + repeat constructor.
    + lia.
    + reflexivity.
Qed.

(** * The magic test of the message chunk *)

Section Int32.

Lemma toInt32_mod (z : Z) : toInt32 z mod 2 ^ 32 = z mod 2 ^ 32.
Proof.
  unfold toInt32.
  pose proof (Z.div_mod (z + 2 ^ 31) (2 ^ 32) ltac:(lia)) as E.
  replace ((z + 2 ^ 31) mod 2 ^ 32 - 2 ^ 31)
    with (z + (- ((z + 2 ^ 31) / 2 ^ 32)) * 2 ^ 32) by lia.
  apply Z_mod_plus_full.
Qed.

Lemma lor_mod (a b : Z) :
  Z.lor a b mod 2 ^ 32 = Z.lor (a mod 2 ^ 32) (b mod 2 ^ 32).
Proof.
  rewrite <- !Z.land_ones by lia. apply Z.land_lor_distr_l.
Qed.

Lemma js_or_mod (a b : Z) :
  js_or a b mod 2 ^ 32 = Z.lor (a mod 2 ^ 32) (b mod 2 ^ 32).
Proof.
  unfold js_or. rewrite toInt32_mod, lor_mod, !toInt32_mod. reflexivity.
Qed.

Lemma js_shl_mod (a k : Z) :
  0 <= k < 32 ->
  js_shl a k mod 2 ^ 32 = (a * 2 ^ k) mod 2 ^ 32.
Proof.
  intros Hk. unfold js_shl.
  rewrite toInt32_mod, (Z.mod_small k 32) by lia.
  rewrite Z.shiftl_mul_pow2 by lia.
  rewrite Z.mul_mod by lia. rewrite toInt32_mod.
  rewrite <- Z.mul_mod by lia. reflexivity.
Qed.

(** Bits that do not overlap: [|] is [+]. *)
Lemma lor_disjoint (a b k : Z) :
  0 <= k -> 0 <= a < 2 ^ k ->
  Z.lor a (b * 2 ^ k) = a + b * 2 ^ k.
Proof.
  intros Hk Ha.
  assert (D : Z.land a (b * 2 ^ k) = 0).
  { apply Z.bits_inj'. intros i Hi.
    rewrite Z.land_spec, Z.bits_0.
    destruct (Z.lt_ge_cases i k) as [Hlt | Hge].
    - rewrite (Z.mul_pow2_bits_low b k i Hlt). apply andb_false_r.
    - rewrite <- (Z.mod_small a (2 ^ k)) by lia.
      rewrite Z.mod_pow2_bits_high by lia. reflexivity. }
  rewrite <- Z.lxor_lor by exact D.
  symmetry. apply Z.add_nocarry_lxor. exact D.
Qed.

(** The value [isZstd] compares with the magic number is the little-endian
    reading of the four bytes. *)
Lemma magic_value (b0 b1 b2 b3 : Z) :
  0 <= b0 < 256 -> 0 <= b1 < 256 -> 0 <= b2 < 256 -> 0 <= b3 < 256 ->
  js_ushr0 (js_or (js_or (js_or b0 (js_shl b1 8)) (js_shl b2 16)) (js_shl b3 24))
  = b0 + 2 ^ 8 * b1 + 2 ^ 16 * b2 + 2 ^ 24 * b3.
Proof.
  intros H0 H1 H2 H3. unfold js_ushr0.
  rewrite !js_or_mod, !js_shl_mod by lia.
  rewrite (Z.mod_small b0), (Z.mod_small (b1 * 2 ^ 8)),
    (Z.mod_small (b2 * 2 ^ 16)), (Z.mod_small (b3 * 2 ^ 24)) by lia.
  rewrite (lor_disjoint b0 b1 8) by lia.
  rewrite (lor_disjoint (b0 + b1 * 2 ^ 8) b2 16) by lia.
  rewrite (lor_disjoint (b0 + b1 * 2 ^ 8 + b2 * 2 ^ 16) b3 24) by lia.
  lia.
Qed.

End Int32.

Lemma at_index_drop (chunk : bytes) (b0 b1 b2 b3 : byte) (l : bytes) :
  chunk = b0 :: b1 :: b2 :: b3 :: l ->
  at_index chunk 0 = byteZ b0 /\ at_index chunk 1 = byteZ b1
  /\ at_index chunk 2 = byteZ b2 /\ at_index chunk 3 = byteZ b3.
Proof. intros ->. repeat split. Qed.

(** [isZstd] is the comparison of the first four bytes, read as an unsigned
    little-endian integer, with the magic number. *)
Lemma isZstd_spec (chunk : bytes) :
  isZstd chunk = true <-> getUint32 chunk 0 = Some ZSTD_MAGIC.
Proof.
  unfold isZstd, isZstd_reads, getUint32.
  change (0 + 4) with 4. change (0 <=? 0) with true.
  change (Z.to_nat 0) with O. cbn [drop andb].
  destruct chunk as [|b0 [|b1 [|b2 [|b3 l]]]];
    try (split; intros; discriminate).
  assert (E1 : (blen (b0 :: b1 :: b2 :: b3 :: l) <? 4) = false).
  { apply Z.ltb_ge. unfold blen. cbn [length]. lia. }
  assert (E2 : (4 <=? blen (b0 :: b1 :: b2 :: b3 :: l)) = true).
  { apply Z.leb_le. unfold blen. cbn [length]. lia. }
  rewrite E1, E2. cbn [fst].
  change (at_index (b0 :: b1 :: b2 :: b3 :: l) 0) with (byteZ b0).
  change (at_index (b0 :: b1 :: b2 :: b3 :: l) 1) with (byteZ b1).
  change (at_index (b0 :: b1 :: b2 :: b3 :: l) 2) with (byteZ b2).
  change (at_index (b0 :: b1 :: b2 :: b3 :: l) 3) with (byteZ b3).
  rewrite magic_value by apply byteZ_range.
  rewrite Z.eqb_eq. split; [intros H; f_equal; exact H | intros [= H]; exact H].
Qed.

(** C7 (codec dispatch): the schema chunk always goes to raw deflate; the
    message chunk goes to the zstd decompressor exactly when its first four
    bytes, read as an unsigned little-endian 32-bit integer, are the magic
    number 0xFD2FB528, and to raw deflate otherwise.  With both libraries
    present the decompression stage hands each chunk to the decompressor so
    chosen; without the optional zstd library a message chunk chosen for
    zstd ends the run. *)
Theorem codec_dispatch :
  (forall chunk0 : bytes, schemaCodec chunk0 = DeflateRaw)
  /\ (forall chunk1 : bytes,
        messageCodec chunk1 = Zstd <-> getUint32 chunk1 0 = Some ZSTD_MAGIC)
  /\ (forall chunk1 : bytes,
        messageCodec chunk1 = DeflateRaw <-> getUint32 chunk1 0 <> Some ZSTD_MAGIC)
  /\ (forall (R : Type) (inflateRaw decompress : bytes -> R) (chunk0 chunk1 : bytes),
        decompressChunks inflateRaw (Some decompress) chunk0 chunk1
        = inr (inflateRaw chunk0,
               match messageCodec chunk1 with
               | Zstd => (Zstd, decompress chunk1)
               | DeflateRaw => (DeflateRaw, inflateRaw chunk1)
               end))
  /\ (forall (R : Type) (inflateRaw : bytes -> R) (chunk0 chunk1 : bytes),
        decompressChunks inflateRaw None chunk0 chunk1
        = match messageCodec chunk1 with
          | Zstd => inl ZstdNotInstalled
          | DeflateRaw => inr (inflateRaw chunk0, (DeflateRaw, inflateRaw chunk1))
          end).
Proof.
  split; [reflexivity|].
  split; [|split; [|split]].
  - intros chunk1. rewrite <- isZstd_spec. unfold messageCodec.
    destruct (isZstd chunk1); split; intros; congruence.
  - intros chunk1. rewrite <- isZstd_spec. unfold messageCodec.
    destruct (isZstd chunk1); split; intros; congruence.
  - intros R inflateRaw decompress chunk0 chunk1.
    unfold decompressChunks, messageCodec.
    destruct (isZstd chunk1); reflexivity.
  - intros R inflateRaw chunk0 chunk1.
    unfold decompressChunks, messageCodec.
    destruct (isZstd chunk1); reflexivity.
Qed.

(** C10 (short message chunk): a chunk of fewer than four bytes fails the
    magic test before any byte is read and goes to raw deflate; and on any
    chunk the test reads only indices inside the chunk. *)
Theorem short_chunk_is_deflate (chunk : bytes) :
  (blen chunk < 4 ->
   isZstd_reads chunk = (false, []) /\ messageCodec chunk = DeflateRaw)
  /\ (forall i : nat, i ∈ snd (isZstd_reads chunk) -> (i < length chunk)%nat).
Proof.
  split.
  - intros Hlt. unfold messageCodec, isZstd, isZstd_reads.
    rewrite (proj2 (Z.ltb_lt _ _) Hlt). split; reflexivity.
  - intros i Hi. unfold isZstd_reads in Hi.
    destruct (blen chunk <? 4) eqn:E.
    + cbn in Hi. apply elem_of_nil in Hi. contradiction.
    + apply Z.ltb_ge in E. unfold blen in E. cbn [snd] in Hi.
      assert (i < 4)%nat.
      { repeat (apply elem_of_cons in Hi as [-> | Hi]; [lia|]).
        apply elem_of_nil in Hi. contradiction. }
      lia.
Qed.

Lemma short_chunk_is_deflate_witness :
  isZstd_reads [x28; xb5; x2f]%byte = (false, [])
  /\ messageCodec [x28; xb5; x2f]%byte = DeflateRaw.
Proof.
  apply (proj1 (short_chunk_is_deflate [x28; xb5; x2f]%byte)).
  reflexivity.
Defined.

(** * The lookup maps *)

Lemma childrenOf_addNode (g : Graph) (n : Node.t) (p : string) :
  childrenOf (addNode g n) p
  = childrenOf g p ++ (if hasParent p n then [n] else []).
Proof.
  unfold addNode, childrenOf at 1, hasParent. cbn [childrenMap].
  destruct (parentKey n) as [pk|] eqn:E.
  - destruct (decide (pk = p)) as [->|Hne].
    + rewrite lookup_insert_eq, bool_decide_eq_true_2 by reflexivity. reflexivity.
    + rewrite lookup_insert_ne by exact Hne.
      rewrite bool_decide_eq_false_2 by congruence.
      rewrite app_nil_r. reflexivity.
  - rewrite bool_decide_eq_false_2 by congruence.
    rewrite app_nil_r. reflexivity.
Qed.

Lemma childrenOf_fold (nodes : list Node.t) (g : Graph) (p : string) :
  childrenOf (fold_left addNode nodes g) p
  = childrenOf g p ++ List.filter (hasParent p) nodes.
Proof.
  revert g. induction nodes as [|n nodes IH]; intros g; cbn [fold_left List.filter].
  - rewrite app_nil_r. reflexivity.
  - rewrite IH, childrenOf_addNode, <- app_assoc.
    destruct (hasParent p n); reflexivity.
Qed.

(** The child list of a key is the input records naming it as parent, in
    input order. *)
Lemma childrenOf_buildGraph (nodes : list Node.t) (p : string) :
  childrenOf (buildGraph nodes) p = List.filter (hasParent p) nodes.
Proof.
  unfold buildGraph. rewrite childrenOf_fold. reflexivity.
Qed.

Lemma nodeMap_addNode (g : Graph) (n : Node.t) (k : string) :
  nodeMap (addNode g n) !! k = if hasKey k n then Some n else nodeMap g !! k.
Proof.
  unfold addNode, hasKey, keyOf. cbn [nodeMap].
  destruct (guidKey (Node.guid n)) as [key|] eqn:E.
  - destruct (decide (key = k)) as [->|Hne].
    + rewrite lookup_insert_eq, bool_decide_eq_true_2 by reflexivity. reflexivity.
    + rewrite lookup_insert_ne by exact Hne.
      rewrite bool_decide_eq_false_2 by congruence. reflexivity.
  - rewrite bool_decide_eq_false_2 by congruence. reflexivity.
Qed.

Lemma nodeMap_fold (nodes : list Node.t) (g : Graph) (k : string) :
  nodeMap (fold_left addNode nodes g) !! k
  = match last (List.filter (hasKey k) nodes) with
    | Some n => Some n
    | None => nodeMap g !! k
    end.
Proof.
  revert g. induction nodes as [|n nodes IH]; intros g; cbn [fold_left List.filter].
  - reflexivity.
  - rewrite IH, nodeMap_addNode.
    destruct (hasKey k n) eqn:E; [|reflexivity].
    rewrite last_cons.
    destruct (last (List.filter (hasKey k) nodes)); reflexivity.
Qed.

(** Last write wins: a key maps to the last input record carrying it. *)
Lemma nodeMap_buildGraph (nodes : list Node.t) (k : string) :
  nodeMap (buildGraph nodes) !! k = last (List.filter (hasKey k) nodes).
Proof.
  unfold buildGraph. rewrite nodeMap_fold.
  destruct (last _); reflexivity.
Qed.

Lemma uniqueIds_occurrences (nodes : list Node.t) (n : Node.t) (k : string) :
  uniqueIds nodes -> n ∈ nodes -> keyOf n = Some k ->
  List.filter (hasKey k) nodes = [n].
Proof.
  unfold uniqueIds.
  induction nodes as [|m nodes IH]; intros Hnd Hin Hk.
  - apply elem_of_nil in Hin. contradiction.
  - cbn [omap list_omap] in Hnd. cbn [List.filter].
    assert (Hnone : forall x, x ∈ nodes -> keyOf x = Some k ->
                              k ∉ omap keyOf nodes -> False).
    { intros x Hx Hkx Hnot. apply Hnot.
      apply list_elem_of_omap. exists x. split; assumption. }
    apply elem_of_cons in Hin as [<- | Hin].
    + rewrite Hk in Hnd. apply NoDup_cons in Hnd as [Hnot Hnd].
      unfold hasKey at 1. rewrite bool_decide_eq_true_2 by exact Hk.
      f_equal.
      destruct (List.filter (hasKey k) nodes) as [|x l] eqn:F; [reflexivity|].
      exfalso.
      assert (Hx : List.In x (List.filter (hasKey k) nodes)) by (rewrite F; left; reflexivity).
      apply filter_In in Hx as [Hx1 Hx2].
      apply bool_decide_eq_true in Hx2.
      apply (Hnone x); [apply list_elem_of_In; exact Hx1 | exact Hx2 | exact Hnot].
    + destruct (keyOf m) as [km|] eqn:Em.
      * apply NoDup_cons in Hnd as [Hnot Hnd].
        unfold hasKey at 1. rewrite Em.
        destruct (decide (km = k)) as [->|Hne].
        -- exfalso. apply (Hnone n); assumption.
        -- rewrite bool_decide_eq_false_2 by congruence.
           apply IH; assumption.
      * unfold hasKey at 1. rewrite Em.
        rewrite bool_decide_eq_false_2 by congruence.
        apply IH; assumption.
Qed.

Lemma filter_filter_and {A : Type} (f g : A -> bool) (l : list A) :
  List.filter f (List.filter g l) = List.filter (fun x => g x && f x) l.
Proof.
  induction l as [|x l IH]; [reflexivity|].
  cbn [List.filter]. destruct (g x); cbn [List.filter andb]; rewrite IH; reflexivity.
Qed.

(** C4 (child list membership), as the code has it: a record is appended to
    its parent's child list once per input record, so the key of [n]
    occurs in the child list of its parent as often as input records carry
    that key under that parent; this is at least once, and exactly once
    when no key is repeated in the input. *)
Theorem child_listed_once_per_record
    (nodes : list Node.t) (n : Node.t) (p k : string) :
  n ∈ nodes ->
  parentKey n = Some p ->
  keyOf n = Some k ->
  occurrences k (childrenOf (buildGraph nodes) p)
  = length (List.filter (fun m => hasParent p m && hasKey k m) nodes)
  /\ (1 <= occurrences k (childrenOf (buildGraph nodes) p))%nat
  /\ (uniqueIds nodes -> occurrences k (childrenOf (buildGraph nodes) p) = 1%nat).
Proof.
  intros Hin Hp Hk.
  unfold occurrences. rewrite childrenOf_buildGraph, filter_filter_and.
  split; [reflexivity|]. split.
  - assert (Hn : List.In n (List.filter (fun m => hasParent p m && hasKey k m) nodes)).
    { apply filter_In. split; [apply list_elem_of_In; exact Hin|].
      unfold hasParent, hasKey.
      rewrite !bool_decide_eq_true_2 by assumption. reflexivity. }
    destruct (List.filter _ nodes); [destruct Hn | cbn [length]; lia].
  - intros Hu.
    rewrite <- filter_filter_and.
    assert (E : List.filter (hasKey k) (List.filter (hasParent p) nodes)
                = List.filter (hasParent p) (List.filter (hasKey k) nodes)).
    { rewrite !filter_filter_and. apply filter_ext. intros x. apply andb_comm. }
    rewrite E, (uniqueIds_occurrences nodes n k Hu Hin Hk).
    cbn [List.filter]. unfold hasParent.
    rewrite bool_decide_eq_true_2 by exact Hp. reflexivity.
Qed.

Lemma child_listed_once_per_record_witness :
  uniqueIds iconOverBackground
  /\ occurrences "0:2" (childrenOf (buildGraph iconOverBackground) "0:1") = 1%nat.
Proof.
  assert (U : uniqueIds iconOverBackground).
  { unfold uniqueIds. apply (bool_decide_unpack _). vm_compute. exact I. }
  split; [exact U|].
  apply (child_listed_once_per_record iconOverBackground bgRect "0:1" "0:2").
  - right. left.
  - reflexivity.
  - reflexivity.
  - exact U.
Defined.

(** C4, against the claim: a child recorded twice under the same parent is
    listed twice in the parent's child list, while the node map keeps one
    record for its key. *)
Lemma repeated_child_listed_twice :
  twiceChild ∈ recordedTwice
  /\ parentKey twiceChild = Some "0:1"
  /\ nodeMap (buildGraph recordedTwice) !! "0:1" = Some twiceParent
  /\ keyOf twiceChild = Some "0:2"
  /\ nodeMap (buildGraph recordedTwice) !! "0:2" = Some twiceChild'
  /\ occurrences "0:2" (childrenOf (buildGraph recordedTwice) "0:1") = 2%nat.
Proof.
  split; [right; left|].
  repeat split; vm_compute; reflexivity.
Qed.

(** * The shape tree *)

(** Induction over shape trees with the hypothesis on all children. *)
Lemma Shape_tree_ind (P : Shape.t -> Prop) :
  (forall t, Forall P (Shape.children t) -> P t) ->
  forall t, P t.
Proof.
  intros step.
  fix IH 1. intros t. apply step.
  destruct t as [ty nm gd sz ps fs ss op hb children]. cbn [Shape.children].
  induction children as [|c cs IHcs]; constructor.
  - apply IH.
  - exact IHcs.
Qed.

Section PushChildren.

(** Children that were pushed come, in order, from records of the child
    list for which the recursive call returned a node. *)
Lemma pushChildren_inv (build : string -> option (option Shape.t))
    (cs : list Node.t) (acc out : list Shape.t) :
  pushChildren build cs acc = Some out ->
  exists pushed,
    out = acc ++ pushed
    /\ Forall (fun s => exists c ck, c ∈ cs /\ keyOf c = Some ck
                                     /\ build ck = Some (Some s)) pushed
    /\ map Some pushed
       = List.filter (fun r => match r with Some _ => true | None => false end)
           (map (fun c => match keyOf c with
                          | Some ck => mjoin (build ck)
                          | None => None
                          end) cs).
Proof.
  revert acc out.
  induction cs as [|c cs IH]; intros acc out H; cbn [pushChildren] in H.
  - injection H as <-. exists []. rewrite app_nil_r. repeat split. constructor.
  - unfold keyOf in *. cbn [map List.filter].
    destruct (guidKey (Node.guid c)) as [ck|] eqn:Ek.
    + destruct (build ck) as [[child|]|] eqn:Eb; [| |discriminate].
      * apply IH in H as (pushed & -> & Hall & Hmap).
        exists (child :: pushed). rewrite <- app_assoc. split; [reflexivity|].
        split.
        -- constructor.
           ++ exists c, ck. rewrite Ek. repeat split; [left | exact Eb].
           ++ eapply Forall_impl; [exact Hall|].
              intros s (c' & ck' & Hin & Hk & Hb).
              exists c', ck'. repeat split; [right; exact Hin | exact Hk | exact Hb].
        -- cbn [mjoin option_join map List.filter]. cbn. f_equal. exact Hmap.
      * apply IH in H as (pushed & -> & Hall & Hmap).
        exists pushed. split; [reflexivity|]. split.
        -- eapply Forall_impl; [exact Hall|].
           intros s (c' & ck' & Hin & Hk & Hb).
           exists c', ck'. repeat split; [right; exact Hin | exact Hk | exact Hb].
        -- cbn. exact Hmap.
    + apply IH in H as (pushed & -> & Hall & Hmap).
      exists pushed. split; [reflexivity|]. split.
      * eapply Forall_impl; [exact Hall|].
        intros s (c' & ck' & Hin & Hk & Hb).
        exists c', ck'. repeat split; [right; exact Hin | exact Hk | exact Hb].
      * exact Hmap.
Qed.

(** A recursive call that returns more often changes nothing that was
    already returned. *)
Lemma pushChildren_mono (b1 b2 : string -> option (option Shape.t))
    (cs : list Node.t) (acc out : list Shape.t) :
  (forall c ck r, c ∈ cs -> keyOf c = Some ck -> b1 ck = Some r -> b2 ck = Some r) ->
  pushChildren b1 cs acc = Some out ->
  pushChildren b2 cs acc = Some out.
Proof.
  revert acc out.
  induction cs as [|c cs IH]; intros acc out Hb H; cbn [pushChildren] in *.
  - exact H.
  - assert (Hb' : forall c0 ck r, c0 ∈ cs -> keyOf c0 = Some ck ->
                                  b1 ck = Some r -> b2 ck = Some r).
    { intros c0 ck r Hin. apply Hb. right. exact Hin. }
    destruct (guidKey (Node.guid c)) as [ck|] eqn:Ek; [|apply IH; assumption].
    destruct (b1 ck) as [r|] eqn:E1; [|discriminate].
    rewrite (Hb c ck r (list_elem_of_here _ _) Ek E1).
    destruct r as [child|]; apply IH; assumption.
Qed.

Lemma pushChildren_returns (build : string -> option (option Shape.t))
    (cs : list Node.t) (acc : list Shape.t) :
  (forall c ck, c ∈ cs -> keyOf c = Some ck -> is_Some (build ck)) ->
  is_Some (pushChildren build cs acc).
Proof.
  revert acc.
  induction cs as [|c cs IH]; intros acc Hb; cbn [pushChildren].
  - eauto.
  - assert (Hb' : forall c0 ck, c0 ∈ cs -> keyOf c0 = Some ck -> is_Some (build ck)).
    { intros c0 ck Hin. apply Hb. right. exact Hin. }
    destruct (guidKey (Node.guid c)) as [ck|] eqn:Ek; [|apply IH; assumption].
    destruct (Hb c ck (list_elem_of_here _ _) Ek) as [r ->].
    destruct r; apply IH; assumption.
Qed.

(** One recursive call that does not return stops the whole loop. *)
Lemma pushChildren_stuck (build : string -> option (option Shape.t))
    (cs1 cs2 : list Node.t) (c : Node.t) (ck : string) (acc : list Shape.t) :
  keyOf c = Some ck -> build ck = None ->
  pushChildren build (cs1 ++ c :: cs2) acc = None.
Proof.
  intros Hk Hb. revert acc.
  induction cs1 as [|c1 cs1 IH]; intros acc; cbn [app pushChildren].
  - unfold keyOf in Hk. rewrite Hk, Hb. reflexivity.
  - destruct (guidKey (Node.guid c1)) as [k1|]; [|apply IH].
    destruct (build k1) as [[s|]|]; [apply IH | apply IH | reflexivity].
Qed.

End PushChildren.

Lemma buildShapeTree_inv (fuel : nat) (g : Graph) (key : string) (depth : Z) (t : Shape.t) :
  buildShapeTree fuel g key depth = Some (Some t) ->
  exists fuel' n children,
    fuel = S fuel'
    /\ nodeMap g !! key = Some n
    /\ isTransparentBg n = false
    /\ pushChildren (fun ck => buildShapeTree fuel' g ck (depth + 1))
         (childrenOf g key) [] = Some children
    /\ t = shapeOf n key children.
Proof.
  destruct fuel as [|fuel']; [discriminate|]. cbn [buildShapeTree].
  destruct (nodeMap g !! key) as [n|]; [|discriminate].
  destruct (isTransparentBg n) eqn:Et; [discriminate|].
  destruct (pushChildren _ _ _) as [children|] eqn:Ep; [|discriminate].
  intros [= <-]. exists fuel', n, children.
  split_and!; (reflexivity || assumption).
Qed.

(** The result does not depend on [depth], and more fuel keeps it. *)
Lemma buildShapeTree_mono (fuel : nat) :
  forall (g : Graph) (key : string) (d d' : Z) (fuel' : nat) (r : option Shape.t),
    (fuel <= fuel')%nat ->
    buildShapeTree fuel g key d = Some r ->
    buildShapeTree fuel' g key d' = Some r.
Proof.
  induction fuel as [|fuel IH]; intros g key d d' fuel' r Hle H; [discriminate|].
  destruct fuel' as [|fuel']; [lia|].
  cbn [buildShapeTree] in *.
  destruct (nodeMap g !! key) as [n|]; [|exact H].
  destruct (isTransparentBg n); [exact H|].
  destruct (pushChildren _ _ _) as [children|] eqn:Ep; [|discriminate].
  erewrite pushChildren_mono; [exact H| |exact Ep].
  intros c ck r' _ _ Hr. cbn beta in *. eapply IH; [lia | exact Hr].
Qed.


Lemma buildShapeTree_guid (fuel : nat) (g : Graph) (key : string) (d : Z) (t : Shape.t) :
  buildShapeTree fuel g key d = Some (Some t) -> Shape.guid t = key.
Proof.
  intros H. apply buildShapeTree_inv in H as (f & n & cs & _ & _ & _ & _ & ->).
  reflexivity.
Qed.

Lemma buildShapeTree_nodes (fuel : nat) :
  forall (g : Graph) (key : string) (d : Z) (t : Shape.t),
    buildShapeTree fuel g key d = Some (Some t) ->
    Forall (builtFrom g) (nodesOf t).
Proof.
  induction fuel as [|fuel IH]; intros g key d t H; [discriminate|].
  apply buildShapeTree_inv in H as (f & n & cs & [= <-] & Hn & Ht & Hp & ->).
  apply pushChildren_inv in Hp as (pushed & -> & Hall & _).
  cbn [app nodesOf shapeOf Shape.children].
  constructor.
  - exists n. cbn. repeat split; try assumption.
    eapply Forall_impl; [exact Hall|].
    intros s (c & ck & Hin & Hk & Hb). exists c. split; [exact Hin|].
    rewrite (buildShapeTree_guid _ _ _ _ _ Hb). exact Hk.
  - apply Forall_concat, Forall_map.
    eapply Forall_impl; [exact Hall|].
    intros s (c & ck & Hin & Hk & Hb). cbn. eapply IH. exact Hb.
Qed.

(** ** The palette comes from the nodes of the tree *)




Lemma elem_of_concat_map {A B : Type} (f : A -> list B) (l : list A) (y : B) :
  y ∈ concat (map f l) <-> exists x, x ∈ l /\ y ∈ f x.
Proof.
  rewrite list_elem_of_In, in_concat. split.
  - intros (ys & Hys & Hy). apply in_map_iff in Hys as (x & <- & Hx).
    exists x. rewrite !list_elem_of_In. auto.
  - intros (x & Hx & Hy). exists (f x). rewrite <- !list_elem_of_In.
    split; [|exact Hy]. apply list_elem_of_In, in_map, list_elem_of_In. exact Hx.
Qed.





(** * The search for vector descendants and the icon containers *)

(** One level of [hasVectorDescendant]: its [for] loop as a search. *)
Lemma hasVectorDescendant_step (g : Graph) (key : string) (d : nat) :
  hasVectorDescendant g key (S d)
  = existsb (fun c => isVectorLike c
                      || match keyOf c with
                         | Some ck => hasVectorDescendant g ck d
                         | None => false
                         end)
      (childrenOf g key).
Proof.
  cbn [hasVectorDescendant]. unfold keyOf.
  induction (childrenOf g key) as [|c cs IH]; [reflexivity|].
  cbn [existsb]. rewrite <- IH.
  destruct (isVectorLike c); [reflexivity|]. cbn [orb].
  destruct (guidKey (Node.guid c)); [|reflexivity].
  destruct (hasVectorDescendant g s d); reflexivity.
Qed.

(** The bounded search finds exactly the vector records within [d] hops. *)
Lemma hasVectorDescendant_spec (nodes : list Node.t) (d : nat) :
  forall key,
    hasVectorDescendant (buildGraph nodes) key d = true <-> vectorWithin nodes key d.
Proof.
  induction d as [|d IH]; intros key.
  - split; [discriminate | inversion 1].
  - rewrite hasVectorDescendant_step, existsb_exists, childrenOf_buildGraph.
    split.
    + intros (c & Hc & Hv).
      apply filter_In in Hc as [Hin Hp].
      apply list_elem_of_In in Hin. apply bool_decide_eq_true in Hp.
      apply orb_true_iff in Hv as [Hv | Hv].
      * eapply vw_child; eassumption.
      * destruct (keyOf c) as [ck|] eqn:Ek; [|discriminate].
        eapply vw_deeper; [eassumption .. |]. apply IH. exact Hv.
    + intros H. inversion H as [k d' c Hin Hp Hv | k d' c ck Hin Hp Hk Hw]; subst.
      * exists c. split.
        -- apply filter_In. split; [apply list_elem_of_In; exact Hin|].
           apply bool_decide_eq_true. exact Hp.
        -- rewrite Hv. reflexivity.
      * exists c. split.
        -- apply filter_In. split; [apply list_elem_of_In; exact Hin|].
           apply bool_decide_eq_true. exact Hp.
        -- rewrite Hk. apply orb_true_iff. right. apply IH. exact Hw.
Qed.

(** On input whose parent links go down a rank, the shape tree of any key
    is returned with [rank key + 1] nested calls. *)
Lemma buildShapeTree_returns (nodes : list Node.t) (rank : string -> nat) :
  ranked nodes rank ->
  forall (fuel : nat) (key : string) (d : Z),
    (rank key < fuel)%nat ->
    is_Some (buildShapeTree fuel (buildGraph nodes) key d).
Proof.
  intros Hr. induction fuel as [|fuel IH]; intros key d Hlt; [lia|].
  cbn [buildShapeTree].
  destruct (nodeMap (buildGraph nodes) !! key) as [m|]; [|eauto].
  destruct (isTransparentBg m); [eauto|].
  destruct (pushChildren_returns
              (fun ck => buildShapeTree fuel (buildGraph nodes) ck (d + 1))
              (childrenOf (buildGraph nodes) key) []) as [cs Hcs].
  - intros c ck Hc Hk. apply IH.
    rewrite childrenOf_buildGraph in Hc.
    apply list_elem_of_In, filter_In in Hc as [Hin Hp].
    apply list_elem_of_In in Hin. apply bool_decide_eq_true in Hp.
    specialize (Hr c key ck Hin Hp Hk). lia.
  - rewrite Hcs. eauto.
Qed.

Lemma isFrame_not_transparent (n : Node.t) :
  isFrame n = true -> isTransparentBg n = false.
Proof.
  unfold isFrame, isTransparentBg. intros H.
  apply bool_decide_eq_true in H. rewrite H. reflexivity.
Qed.

(** The records [findIcons] returns are those its loop body pushes. *)
Lemma eachFrame_elem (fuel : nat) (g : Graph) (frames : list Node.t) :
  forall (acc out : list IconContainer),
    eachFrame fuel g frames acc = Some out ->
    forall ic, ic ∈ out <->
               ic ∈ acc \/ exists n, n ∈ frames /\ iconContainer fuel g n = Some (Some ic).
Proof.
  induction frames as [|n rest IH]; intros acc out H ic; cbn [eachFrame] in H.
  - injection H as <-. split; [auto|].
    intros [H | (n & Hn & _)]; [exact H|]. apply elem_of_nil in Hn. contradiction.
  - destruct (iconContainer fuel g n) as [[ic'|]|] eqn:E; [| |discriminate].
    + rewrite (IH _ _ H ic), elem_of_app, list_elem_of_singleton. split.
      * intros [[Ha | ->] | (m & Hm & Em)]; [auto| |].
        -- right. exists n. split; [left | exact E].
        -- right. exists m. split; [right; exact Hm | exact Em].
      * intros [Ha | (m & Hm & Em)]; [auto|].
        apply elem_of_cons in Hm as [-> | Hm].
        -- left. right. congruence.
        -- right. exists m. auto.
    + rewrite (IH _ _ H ic). split.
      * intros [Ha | (m & Hm & Em)]; [auto|].
        right. exists m. split; [right; exact Hm | exact Em].
      * intros [Ha | (m & Hm & Em)]; [auto|].
        apply elem_of_cons in Hm as [-> | Hm]; [congruence|].
        right. exists m. auto.
Qed.

(** The icons [findIcons] returns are those its loop body pushes for the
    [FRAME] records of the input. *)
Lemma findIcons_elem (fuel : nat) (nodes : list Node.t) (out : list IconContainer) :
  findIcons fuel nodes = Some out ->
  forall ic, ic ∈ out <->
             exists n, n ∈ nodes /\ isFrame n = true
                       /\ iconContainer fuel (buildGraph nodes) n = Some (Some ic).
Proof.
  intros H ic. unfold findIcons in H.
  rewrite (eachFrame_elem _ _ _ _ _ H ic). split.
  - intros [Hin | (n & Hn & E)]; [apply elem_of_nil in Hin; contradiction|].
    apply list_elem_of_In, filter_In in Hn as [Hn Hf].
    exists n. split_and!; [apply list_elem_of_In; exact Hn | exact Hf | exact E].
  - intros (n & Hn & Hf & E). right. exists n. split; [|exact E].
    apply list_elem_of_In, filter_In. split; [apply list_elem_of_In; exact Hn | exact Hf].
Qed.

(** C9 (icon candidates), as the code has it.  A record for which the loop
    pushes an icon is a [FRAME] with a key and a size whose width and
    height, rounded to the nearest integer, are both at most 32, and has a
    [VECTOR] or [BOOLEAN_OPERATION] record within 5 hops below it; and on
    input with unique keys and acyclic parent links every such record of
    the input gets its icon. *)
Theorem icon_candidate_iff (nodes : list Node.t) (n : Node.t) :
  (iconPushed nodes n -> iconCandidate nodes n)
  /\ (forall rank, uniqueIds nodes -> ranked nodes rank -> n ∈ nodes ->
                   iconCandidate nodes n -> iconPushed nodes n).
Proof.
  unfold iconPushed, iconCandidate, iconContainer, keyOf. split.
  - intros (Hf & fuel & ic & H).
    split; [apply bool_decide_eq_true in Hf; exact Hf|].
    destruct (Node.size n) as [[x y]|]; [|discriminate].
    destruct ((Math_round x >? 32) || (Math_round y >? 32)) eqn:Eb; [discriminate|].
    apply orb_false_iff in Eb as [Ex Ey].
    rewrite Z.gtb_ltb in Ex, Ey. apply Z.ltb_ge in Ex, Ey.
    destruct (guidKey (Node.guid n)) as [key|]; [|discriminate].
    destruct (hasVectorDescendant (buildGraph nodes) key 5) eqn:Ev; [|discriminate].
    exists x, y, key. split_and!; try reflexivity; try assumption.
    apply hasVectorDescendant_spec. exact Ev.
  - intros rank Hu Hr Hin (Hty & x & y & key & Hs & Hx & Hy & Hk & Hv).
    assert (Hf : isFrame n = true) by (apply bool_decide_eq_true; exact Hty).
    split; [exact Hf|].
    exists (S (rank key)).
    rewrite Hs, Hk.
    assert (Eb : (Math_round x >? 32) || (Math_round y >? 32) = false).
    { apply orb_false_iff. rewrite !Z.gtb_ltb. split; apply Z.ltb_ge; assumption. }
    rewrite Eb.
    apply hasVectorDescendant_spec in Hv. rewrite Hv. cbn [negb].
    destruct (buildShapeTree_returns nodes rank Hr (S (rank key)) key 0 (le_n _)) as [r Hb].
    rewrite Hb.
    destruct r as [t|]; [eauto|]. exfalso.
    cbn [buildShapeTree] in Hb.
    rewrite nodeMap_buildGraph, (uniqueIds_occurrences nodes n key Hu Hin Hk) in Hb.
    cbn [last] in Hb. rewrite (isFrame_not_transparent n Hf) in Hb.
    destruct (pushChildren _ _ _); discriminate.
Qed.

Lemma icon_candidate_iff_witness : iconPushed iconOverBackground bgFrame.
Proof.
  apply (proj2 (icon_candidate_iff iconOverBackground bgFrame)
           (fun k => if bool_decide (k = "0:1") then 2%nat
                     else if bool_decide (k = "0:2") then 1%nat else 0%nat)).
  - unfold uniqueIds. apply (bool_decide_unpack _). vm_compute. exact I.
  - intros c p k Hc Hp Hk.
    apply list_elem_of_In in Hc. cbn [iconOverBackground In] in Hc.
    destruct Hc as [<- | [<- | [<- | []]]]; try discriminate Hp;
      injection Hp as <-; injection Hk as <-; vm_compute; lia.
  - left.
  - split; [reflexivity|].
    exists 16%Q, 16%Q, "0:1". split_and!; try reflexivity; try (vm_compute; discriminate).
    eapply (vw_deeper _ "0:1" 4 bgRect "0:2"); [right; left | reflexivity | reflexivity |].
    eapply (vw_child _ "0:2" 3 bgVector); [right; right; left | reflexivity | reflexivity].
Defined.

(** C9, against the claim: a frame 32.4 wide is pushed as an icon, because
    the test is on the rounded width. *)
Lemma wide_frame_selected :
  Node.size wideFrame = Some (324 # 10, 16)%Q
  /\ ~ (324 # 10 <= 32)%Q
  /\ option_map (map (fun ic => (ic_guid ic, ic_size ic))) (findIcons 2 wideIcon)
     = Some [("0:1", (32, 16))].
Proof.
  split; [reflexivity|]. split; [|vm_compute; reflexivity].
  intros H. vm_compute in H. apply H. reflexivity.
Qed.

(** ** A frame that is its own parent *)

Lemma iconContainer_no_tree (fuel : nat) (g : Graph) (n : Node.t)
    (x y : Q) (key : string) :
  Node.size n = Some (x, y) ->
  (Math_round x >? 32) || (Math_round y >? 32) = false ->
  keyOf n = Some key ->
  hasVectorDescendant g key 5 = true ->
  buildShapeTree fuel g key 0 = None ->
  iconContainer fuel g n = None.
Proof.
  unfold iconContainer, keyOf. intros -> -> -> -> ->. reflexivity.
Qed.

Lemma selfParent_tree_never_returned (fuel : nat) :
  forall d, buildShapeTree fuel (buildGraph selfParentIcon) "0:1" d = None.
Proof.
  induction fuel as [|fuel IH]; intros d; [reflexivity|].
  cbn [buildShapeTree].
  assert (E1 : nodeMap (buildGraph selfParentIcon) !! "0:1" = Some loopFrame)
    by (vm_compute; reflexivity).
  assert (E2 : isTransparentBg loopFrame = false) by (vm_compute; reflexivity).
  assert (E3 : childrenOf (buildGraph selfParentIcon) "0:1" = [] ++ loopFrame :: [loopVector])
    by (vm_compute; reflexivity).
  rewrite E1, E2, E3.
  rewrite (pushChildren_stuck _ [] [loopVector] loopFrame "0:1"); [reflexivity| reflexivity |].
  apply IH.
Qed.

(** C2 (self-referential parent): the bounded descendant search accepts the
    frame that names itself as parent, and then the shape tree of that
    frame is never returned: no number of nested calls is enough, so the
    run produces no icon list. *)
Theorem self_parent_frame_never_finishes :
  hasVectorDescendant (buildGraph selfParentIcon) "0:1" 5 = true
  /\ (forall fuel d, buildShapeTree fuel (buildGraph selfParentIcon) "0:1" d = None)
  /\ (forall fuel, findIcons fuel selfParentIcon = None).
Proof.
  split; [vm_compute; reflexivity|].
  split; [intros fuel d; apply selfParent_tree_never_returned|].
  intros fuel. unfold findIcons.
  change (List.filter isFrame selfParentIcon) with [loopFrame].
  cbn [eachFrame].
  assert (E : iconContainer fuel (buildGraph selfParentIcon) loopFrame = None).
  { apply (iconContainer_no_tree fuel _ loopFrame 16%Q 16%Q "0:1").
    - reflexivity.
    - reflexivity.
    - reflexivity.
    - vm_compute. reflexivity.
    - apply selfParent_tree_never_returned. }
  rewrite E. reflexivity.
Qed.

(** * The primary colour *)

Lemma extractPrimaryColor_unfold (t : Shape.t) :
  extractPrimaryColor t
  = if typeIs "BOOLEAN_OPERATION" t && nonEmpty (Shape.fills t)
    then firstFillColor (Shape.fills t)
    else if typeIs "VECTOR" t && nonEmpty (Shape.fills t)
    then firstFillColor (Shape.fills t)
    else if typeIs "VECTOR" t && negb (nonEmpty (Shape.fills t))
            && nonEmpty (Shape.strokes t)
    then firstStrokeColor (Shape.strokes t)
    else if typeIs "ELLIPSE" t && nonEmpty (Shape.strokes t)
    then firstStrokeColor (Shape.strokes t)
    else fromChildrenOrStroke extractPrimaryColor t.
Proof.
  destruct t as [ty nm gd sz ps fs ss op hb children].
  cbn [extractPrimaryColor Shape.type Shape.fills Shape.strokes Shape.children].
  repeat (match goal with |- context [if ?b then _ else _] => destruct b end;
          [reflexivity|]).
  unfold fromChildrenOrStroke.
  cbn [Shape.type Shape.fills Shape.strokes Shape.children].
  match goal with
  | |- match ?l1 children with _ => _ end = _ =>
      assert (E1 : forall cs, l1 cs
                = firstTruthy (map extractPrimaryColor
                                 (List.filter notRoundedRectangle cs)))
  end.
  { induction cs as [|c cs IH]; [reflexivity|].
    cbn [List.filter]. unfold notRoundedRectangle at 1.
    destruct (typeIs "ROUNDED_RECTANGLE" c); cbn [negb]; [exact IH|].
    cbn [map firstTruthy]. rewrite <- IH. reflexivity. }
  rewrite E1. clear E1.
  destruct (firstTruthy _) as [c1|]; [reflexivity|].
  match goal with
  | |- match ?l2 children with _ => _ end = _ =>
      assert (E2 : forall cs, l2 cs = firstTruthy (map extractPrimaryColor cs))
  end.
  { induction cs as [|c cs IH]; [reflexivity|].
    cbn [map firstTruthy]. rewrite <- IH. reflexivity. }
  rewrite E2. clear E2.
  destruct (firstTruthy _) as [c2|]; [reflexivity|].
  destruct ss; reflexivity.
Qed.

(** C5 (primary colour): [extractPrimaryColor] follows the eight rules in
    their order, and gives #1677FF for a boolean operation filled #1677FF
    over a vector filled #1F8FFB, and #070828 for a vector without fills
    stroked #070828. *)
Theorem primary_color_priority :
  (forall t, extractPrimaryColor t = primaryColorRules extractPrimaryColor t)
  /\ extractPrimaryColor
       (sampleShape "BOOLEAN_OPERATION" [mkFill (Some "#1677FF") 1] []
          [sampleShape "VECTOR" [mkFill (Some "#1F8FFB") 1] [] []])
     = Some "#1677FF"
  /\ extractPrimaryColor
       (sampleShape "VECTOR" [] [mkStroke (Some "#070828") 1] [])
     = Some "#070828".
Proof.
  split; [|split; reflexivity].
  intros t. rewrite extractPrimaryColor_unfold.
  unfold primaryColorRules, typeIs.
  destruct (bool_decide (Shape.type t = "BOOLEAN_OPERATION")) eqn:Eb.
  - apply bool_decide_eq_true in Eb. rewrite Eb.
    change (bool_decide ("BOOLEAN_OPERATION" = "VECTOR")) with false.
    change (bool_decide ("BOOLEAN_OPERATION" = "ELLIPSE")) with false.
    destruct (Shape.fills t); reflexivity.
  - cbn [andb].
    destruct (bool_decide (Shape.type t = "VECTOR")) eqn:Ev.
    + apply bool_decide_eq_true in Ev. rewrite Ev.
      change (bool_decide ("VECTOR" = "ELLIPSE")) with false.
      destruct (Shape.fills t); [|reflexivity].
      destruct (Shape.strokes t); reflexivity.
    + cbn [andb].
      destruct (bool_decide (Shape.type t = "ELLIPSE")); [|reflexivity].
      destruct (Shape.strokes t); reflexivity.
Qed.

(** * Sibling order *)

Section SortChildren.

Variable localeCompare : string -> string -> Z.
Hypothesis Hcmp : consistent localeCompare.

Lemma cmp_flip (a b : Node.t) :
  0 < comparePosition localeCompare a b <-> comparePosition localeCompare b a < 0.
Proof. apply (proj1 Hcmp). Qed.

Lemma cmp_trans (a b c : Node.t) :
  comparePosition localeCompare a b <= 0 ->
  comparePosition localeCompare b c <= 0 ->
  comparePosition localeCompare a c <= 0.
Proof. apply (proj2 Hcmp). Qed.

Lemma cmp_zero_sym (a b : Node.t) :
  comparePosition localeCompare a b = 0 -> comparePosition localeCompare b a = 0.
Proof.
  intros H. pose proof (cmp_flip a b). pose proof (cmp_flip b a). lia.
Qed.

Lemma insertSorted_Permutation (x : Node.t) (l : list Node.t) :
  Permutation (insertSorted localeCompare x l) (x :: l).
Proof.
  induction l as [|y l IH]; cbn [insertSorted]; [reflexivity|].
  destruct (0 <? comparePosition localeCompare x y); [|reflexivity].
  rewrite IH. apply perm_swap.
Qed.

Lemma sortChildren_Permutation (l : list Node.t) :
  Permutation (sortChildren localeCompare l) l.
Proof.
  induction l as [|x l IH]; cbn [sortChildren]; [reflexivity|].
  rewrite insertSorted_Permutation, IH. reflexivity.
Qed.

Lemma insertSorted_sorted (x : Node.t) (l : list Node.t) :
  StronglySorted (notAfter localeCompare) l ->
  StronglySorted (notAfter localeCompare) (insertSorted localeCompare x l).
Proof.
  induction 1 as [|y l Hs IH Hy]; cbn [insertSorted].
  - repeat constructor.
  - destruct (0 <? comparePosition localeCompare x y) eqn:E.
    + apply Z.ltb_lt in E. constructor; [exact IH|].
      rewrite (insertSorted_Permutation x l). constructor; [|exact Hy].
      unfold notAfter. apply cmp_flip in E. lia.
    + apply Z.ltb_ge in E. constructor; [constructor; assumption|].
      constructor; [exact E|].
      eapply Forall_impl; [exact Hy|].
      intros z Hz. unfold notAfter in *. eapply cmp_trans; eassumption.
Qed.

Lemma sortChildren_sorted (l : list Node.t) :
  StronglySorted (notAfter localeCompare) (sortChildren localeCompare l).
Proof.
  induction l as [|x l IH]; cbn [sortChildren]; [constructor|].
  apply insertSorted_sorted. exact IH.
Qed.

(** Records with equal keys keep their order. *)
Lemma insertSorted_stable (z x : Node.t) (l : list Node.t) :
  List.filter (sameKey localeCompare z) (insertSorted localeCompare x l)
  = List.filter (sameKey localeCompare z) (x :: l).
Proof.
  induction l as [|y l IH]; cbn [insertSorted]; [reflexivity|].
  destruct (0 <? comparePosition localeCompare x y) eqn:E; [|reflexivity].
  apply Z.ltb_lt in E.
  cbn [List.filter] in *. rewrite IH.
  destruct (sameKey localeCompare z x) eqn:Ex;
    destruct (sameKey localeCompare z y) eqn:Ey; try reflexivity.
  exfalso. unfold sameKey in *. apply Z.eqb_eq in Ex, Ey.
  apply cmp_zero_sym in Ex.
  assert (comparePosition localeCompare x y <= 0)
    by (apply (cmp_trans x z y); lia).
  lia.
Qed.

Lemma sortChildren_stable (z : Node.t) (l : list Node.t) :
  List.filter (sameKey localeCompare z) (sortChildren localeCompare l)
  = List.filter (sameKey localeCompare z) l.
Proof.
  induction l as [|x l IH]; cbn [sortChildren]; [reflexivity|].
  rewrite insertSorted_stable. cbn [List.filter]. rewrite IH. reflexivity.
Qed.

End SortChildren.

(** The children of a shape-tree node follow the child list. *)
Lemma pushChildren_order (build : string -> option (option Shape.t))
    (cs : list Node.t) :
  (forall ck s, build ck = Some (Some s) -> Shape.guid s = ck) ->
  forall acc out,
    pushChildren build cs acc = Some out ->
    exists pushed, out = acc ++ pushed
                   /\ map Shape.guid pushed `sublist_of` omap keyOf cs.
Proof.
  intros Hg. induction cs as [|c cs IH]; intros acc out H; cbn [pushChildren] in H.
  - injection H as <-. exists []. rewrite app_nil_r. split; [reflexivity|constructor].
  - cbn [omap list_omap]. unfold keyOf at 1.
    destruct (guidKey (Node.guid c)) as [ck|]; [|apply IH; exact H].
    destruct (build ck) as [[s|]|] eqn:Eb; [| |discriminate].
    + apply IH in H as (pushed & -> & Hsub).
      exists (s :: pushed). rewrite <- app_assoc. split; [reflexivity|].
      cbn [map]. rewrite (Hg ck s Eb). apply sublist_skip. exact Hsub.
    + apply IH in H as (pushed & -> & Hsub).
      exists pushed. split; [reflexivity|]. apply sublist_cons. exact Hsub.
Qed.

Lemma lexCompare_consistent : consistent lexCompare.
Proof.
  unfold consistent, lexCompare. split.
  - intros a b. rewrite (String.compare_antisym b a).
    destruct (String.compare a b); cbn [CompOpp]; lia.
  - intros a b c Hab Hbc.
    destruct (String.compare a b) eqn:Eab; [| |lia].
    + apply String.compare_eq_iff in Eab. subst b. exact Hbc.
    + destruct (String.compare b c) eqn:Ebc; [| |lia].
      * apply String.compare_eq_iff in Ebc. subst c. rewrite Eab. lia.
      * apply String_as_OT.cmp_lt in Eab, Ebc.
        pose proof (String_as_OT.lt_trans _ _ _ Eab Ebc) as Hac.
        apply String_as_OT.cmp_lt in Hac. unfold String_as_OT.cmp in Hac.
        rewrite Hac. lia.
Qed.

(** C6 (sibling order), as the code has it.  [printTree] goes through the
    children of a record sorted by their position keys under the
    comparator (a consistent one): a permutation of the child list, no
    record after one that compares greater, equal keys in arrival order.
    [buildShapeTree] does not sort: the children of a shape-tree node
    follow the input order of the records. *)
Theorem sibling_order (localeCompare : string -> string -> Z) :
  consistent localeCompare ->
  (forall (g : Graph) (n : Node.t) (key : string),
      keyOf n = Some key ->
      Permutation (sortedChildren localeCompare g n) (childrenOf g key)
      /\ StronglySorted (notAfter localeCompare) (sortedChildren localeCompare g n)
      /\ forall z, List.filter (sameKey localeCompare z) (sortedChildren localeCompare g n)
                   = List.filter (sameKey localeCompare z) (childrenOf g key))
  /\ (forall (fuel : nat) (nodes : list Node.t) (key : string) (d : Z) (t : Shape.t),
         buildShapeTree fuel (buildGraph nodes) key d = Some (Some t) ->
         map Shape.guid (Shape.children t)
           `sublist_of` omap keyOf (List.filter (hasParent key) nodes)).
Proof.
  intros Hc. split.
  - intros g n key Hk. unfold sortedChildren. unfold keyOf in Hk. rewrite Hk.
    split; [apply sortChildren_Permutation|].
    split; [apply sortChildren_sorted; exact Hc|].
    intros z. apply sortChildren_stable. exact Hc.
  - intros fuel nodes key d t H.
    apply buildShapeTree_inv in H as (f & n & cs & -> & Hn & Ht & Hp & ->).
    apply pushChildren_order in Hp as (pushed & -> & Hsub).
    + cbn [app shapeOf Shape.children].
      rewrite <- childrenOf_buildGraph. exact Hsub.
    + intros ck s Hs. eapply buildShapeTree_guid. exact Hs.
Qed.

Lemma sibling_order_witness :
  consistent lexCompare
  /\ sortedChildren lexCompare (buildGraph outOfOrder) orderFrame
     = [orderSecond; orderFirst]
  /\ StronglySorted (notAfter lexCompare)
       (sortedChildren lexCompare (buildGraph outOfOrder) orderFrame).
Proof.
  split; [exact lexCompare_consistent|].
  split; [vm_compute; reflexivity|].
  apply (proj1 (sibling_order lexCompare lexCompare_consistent)
           (buildGraph outOfOrder) orderFrame "0:1").
  reflexivity.
Defined.

(** C6, against the claim: two children arriving with keys "b" then "a"
    stay in that order in the shape tree, though "a" is the smaller key. *)
Lemma shape_tree_children_in_arrival_order :
  map positionKey (childrenOf (buildGraph outOfOrder) "0:1") = ["b"; "a"]
  /\ lexCompare "a" "b" < 0
  /\ option_map (option_map (fun t => map Shape.guid (Shape.children t)))
       (buildShapeTree 2 (buildGraph outOfOrder) "0:1" 0)
     = Some (Some ["0:2"; "0:3"])
  /\ map keyOf (childrenOf (buildGraph outOfOrder) "0:1")
     = [Some "0:2"; Some "0:3"].
Proof.
  repeat split; vm_compute; reflexivity.
Qed.

(** * Further properties of the container reader *)

(** What [readFig] answers once the prelude and the version are read. *)
Lemma readFig_after_version (buf : bytes) (version : Z) :
  take 8 buf = FIG_KIWI_PRELUDE ->
  getUint32 buf 8 = Some version ->
  exists chunks truncated,
    readChunks buf = Some (chunks, truncated)
    /\ readFig buf
       = Some (if (length chunks <? 2)%nat then inl InsufficientChunks
               else inr (mkFramed version chunks truncated)).
Proof.
  intros Hp Hv.
  destruct (readChunks_returns buf) as [[chunks truncated] Hc].
  exists chunks, truncated. split; [exact Hc|].
  unfold readFig, bytes_eqb, slice.
  change (blen FIG_KIWI_PRELUDE) with 8.
  change (Z.to_nat (8 - 0)) with 8%nat. change (Z.to_nat 0) with 0%nat.
  rewrite drop_0, bool_decide_eq_true_2 by exact Hp. cbn [negb].
  rewrite Hv, Hc. destruct (length chunks <? 2)%nat; reflexivity.
Qed.

Lemma getUint32_short (buf : bytes) (off : Z) :
  blen buf < off + 4 -> getUint32 buf off = None.
Proof.
  intros H. unfold getUint32.
  assert (E : (off + 4 <=? blen buf) = false) by (apply Z.leb_gt; lia).
  rewrite E, andb_false_r. reflexivity.
Qed.

(** X1 (prelude and version): the run ends with the invalid-prelude error
    exactly when the first eight bytes are not 'fig-kiwi' (a shorter
    buffer included), and with the out-of-range read of the version
    exactly when the prelude is there and fewer than twelve bytes are. *)
Theorem prelude_and_version_errors (buf : bytes) :
  (readFig buf = Some (inl InvalidPrelude) <-> take 8 buf <> FIG_KIWI_PRELUDE)
  /\ (readFig buf = Some (inl VersionOutOfRange)
      <-> take 8 buf = FIG_KIWI_PRELUDE /\ blen buf < 12).
Proof.
  destruct (decide (take 8 buf = FIG_KIWI_PRELUDE)) as [Hp | Hp].
  - destruct (getUint32 buf 8) as [version|] eqn:Hv.
    + destruct (readFig_after_version buf version Hp Hv) as (cs & t & _ & ->).
      assert (12 <= blen buf).
      { destruct (Z.lt_ge_cases (blen buf) 12) as [Hlt|]; [|assumption].
        rewrite getUint32_short in Hv by lia. discriminate. }
      split; split; try (destruct (length cs <? 2)%nat; discriminate).
      * intros Hn. contradiction.
      * intros [_ Hlt]. lia.
    + assert (E : readFig buf = Some (inl VersionOutOfRange)).
      { unfold readFig, bytes_eqb, slice.
        change (blen FIG_KIWI_PRELUDE) with 8.
        change (Z.to_nat (8 - 0)) with 8%nat. change (Z.to_nat 0) with 0%nat.
        rewrite drop_0, bool_decide_eq_true_2 by exact Hp. cbn [negb].
        rewrite Hv. reflexivity. }
      rewrite E. split; split; try discriminate; try contradiction.
      * intros _. split; [exact Hp|].
        destruct (Z.lt_ge_cases (blen buf) 12) as [Hlt|Hge]; [exact Hlt|].
        destruct (getUint32_in_range buf 8) as (v & Hv' & _); [lia | lia |].
        congruence.
      * reflexivity.
  - assert (E : readFig buf = Some (inl InvalidPrelude)).
    { unfold readFig, bytes_eqb, slice.
      change (blen FIG_KIWI_PRELUDE) with 8.
      change (Z.to_nat (8 - 0)) with 8%nat. change (Z.to_nat 0) with 0%nat.
      rewrite drop_0, bool_decide_eq_false_2 by exact Hp. reflexivity. }
    rewrite E. split; split; try discriminate; try tauto.
Qed.

(** X2 (framing round trip): a buffer assembled from a version below 2^32
    and chunks shorter than 2^32 bytes, the last of them not empty, is
    read back as that version and exactly those chunks, with no truncation
    logged; the run is fatal when there are fewer than two chunks. *)
Theorem framing_round_trip (version : Z) (chunks : list bytes) :
  0 <= version < 2 ^ 32 ->
  Forall (fun c => blen c < 2 ^ 32) chunks ->
  (forall c, last chunks = Some c -> c <> []) ->
  readFig (assemble version chunks)
  = Some (if (length chunks <? 2)%nat then inl InsufficientChunks
          else inr (mkFramed version chunks false)).
Proof.
  intros Hv Hsz Hlast. apply readFig_assemble; assumption.
Qed.

Lemma framing_round_trip_witness :
  readFig (assemble 106 [[x28; xb5]; []; [x01; x02; x03]]%byte)
  = Some (inr (mkFramed 106 [[x28; xb5]; []; [x01; x02; x03]]%byte false)).
Proof.
  apply (framing_round_trip 106 [[x28; xb5]; []; [x01; x02; x03]]%byte).
  - lia.
  - repeat constructor.
  - intros c [= <-]. discriminate.
Defined.

(** ** What the loop returns is in the buffer *)

Lemma byte_of_Z_byteZ (b : byte) : byte_of_Z (byteZ b) = b.
Proof.
  unfold byte_of_Z. pose proof (byteZ_range b) as Hr.
  rewrite Z.mod_small by lia. unfold byteZ.
  rewrite N2Z.id, Byte.of_to_N. reflexivity.
Qed.

Lemma le32_of_bytes (b0 b1 b2 b3 : byte) :
  le32 (byteZ b0 + 2 ^ 8 * byteZ b1 + 2 ^ 16 * byteZ b2 + 2 ^ 24 * byteZ b3)
  = [b0; b1; b2; b3].
Proof.
  pose proof (byteZ_range b0) as H0. pose proof (byteZ_range b1) as H1.
  pose proof (byteZ_range b2) as H2. pose proof (byteZ_range b3) as H3.
  set (n := byteZ b0 + 2 ^ 8 * byteZ b1 + 2 ^ 16 * byteZ b2 + 2 ^ 24 * byteZ b3).
  assert (E0 : n mod 256 = byteZ b0).
  { symmetry. apply (Z.mod_unique_pos n 256
      (byteZ b1 + 2 ^ 8 * byteZ b2 + 2 ^ 16 * byteZ b3)); [lia|].
    unfold n. lia. }
  assert (D1 : n / 2 ^ 8 = byteZ b1 + 2 ^ 8 * byteZ b2 + 2 ^ 16 * byteZ b3).
  { symmetry. apply (Z.div_unique_pos n (2 ^ 8) _ (byteZ b0)); [lia|].
    unfold n. lia. }
  assert (D2 : n / 2 ^ 16 = byteZ b2 + 2 ^ 8 * byteZ b3).
  { symmetry.
    apply (Z.div_unique_pos n (2 ^ 16) _ (byteZ b0 + 2 ^ 8 * byteZ b1)); [lia|].
    unfold n. lia. }
  assert (D3 : n / 2 ^ 24 = byteZ b3).
  { symmetry.
    apply (Z.div_unique_pos n (2 ^ 24) _
             (byteZ b0 + 2 ^ 8 * byteZ b1 + 2 ^ 16 * byteZ b2)); [lia|].
    unfold n. lia. }
  assert (E1 : (n / 2 ^ 8) mod 256 = byteZ b1).
  { rewrite D1. symmetry.
    apply (Z.mod_unique_pos _ 256 (byteZ b2 + 2 ^ 8 * byteZ b3)); lia. }
  assert (E2 : (n / 2 ^ 16) mod 256 = byteZ b2).
  { rewrite D2. symmetry. apply (Z.mod_unique_pos _ 256 (byteZ b3)); lia. }
  assert (E3 : (n / 2 ^ 24) mod 256 = byteZ b3).
  { rewrite D3. apply Z.mod_small. lia. }
  unfold le32, byte_of_Z. rewrite E0, E1, E2, E3.
  pose proof (byte_of_Z_byteZ b0) as B0. pose proof (byte_of_Z_byteZ b1) as B1.
  pose proof (byte_of_Z_byteZ b2) as B2. pose proof (byte_of_Z_byteZ b3) as B3.
  unfold byte_of_Z in B0, B1, B2, B3.
  rewrite (Z.mod_small (byteZ b0)) in B0 by lia.
  rewrite (Z.mod_small (byteZ b1)) in B1 by lia.
  rewrite (Z.mod_small (byteZ b2)) in B2 by lia.
  rewrite (Z.mod_small (byteZ b3)) in B3 by lia.
  rewrite B0, B1, B2, B3. reflexivity.
Qed.

(** A length field that could be read is the first four bytes at its
    offset, and reads the same from the rest of the buffer. *)
Lemma getUint32_Some_inv (buf : bytes) (off size : Z) :
  getUint32 buf off = Some size ->
  0 <= off /\ off + 4 <= blen buf
  /\ exists tail, drop (Z.to_nat off) buf = le32 size ++ tail
                  /\ blen tail = blen buf - off - 4.
Proof.
  unfold getUint32.
  destruct (0 <=? off) eqn:E0; [|discriminate].
  destruct (off + 4 <=? blen buf) eqn:E4; [|discriminate].
  apply Z.leb_le in E0, E4. cbn [andb].
  destruct (drop (Z.to_nat off) buf) as [|b0 [|b1 [|b2 [|b3 tail]]]] eqn:Ed;
    try discriminate.
  intros [= <-]. split; [exact E0|]. split; [exact E4|].
  exists tail. rewrite le32_of_bytes. split; [reflexivity|].
  assert (L : length (drop (Z.to_nat off) buf) = (4 + length tail)%nat)
    by (rewrite Ed; reflexivity).
  rewrite length_drop in L. unfold blen in *. lia.
Qed.

Lemma chunkLoop_sound (fuel : nat) (buf : bytes) :
  forall (offset : Z) (acc out : list bytes) (truncated : bool),
    0 <= offset ->
    chunkLoop fuel buf offset acc = Some (out, truncated) ->
    exists cs rest,
      out = acc ++ cs
      /\ drop (Z.to_nat offset) buf = frames cs ++ rest
      /\ (truncated = false -> blen rest <= 4)
      /\ (truncated = true ->
          exists size tail, rest = le32 size ++ tail
                            /\ tail <> [] /\ blen tail < size).
Proof.
  induction fuel as [|fuel IH]; intros offset acc out truncated H0 H; [discriminate|].
  cbn [chunkLoop] in H.
  destruct (offset + 4 <? blen buf) eqn:Hlt.
  - apply Z.ltb_lt in Hlt.
    destruct (getUint32 buf offset) as [size|] eqn:Hg; [|discriminate].
    cbv zeta in H.
    destruct (getUint32_Some_inv _ _ _ Hg) as (_ & _ & tail & Hd & Htl).
    assert (Hsz : 0 <= size).
    { destruct (getUint32_in_range buf offset) as (s & Hs & Hs0); [lia..|].
      congruence. }
    destruct (offset + 4 + size >? blen buf) eqn:Hgt.
    + injection H as <- <-. rewrite Z.gtb_ltb in Hgt. apply Z.ltb_lt in Hgt.
      exists [], (le32 size ++ tail). rewrite app_nil_r. split; [reflexivity|].
      split; [exact Hd|]. split; [discriminate|].
      intros _. exists size, tail. split; [reflexivity|].
      split; [|lia].
      intros ->. change (blen []) with 0 in Htl. lia.
    + rewrite Z.gtb_ltb in Hgt. apply Z.ltb_ge in Hgt.
      apply IH in H as (cs & rest & -> & Hdrop & Hf & Ht); [|lia].
      set (c := slice buf (offset + 4) (offset + 4 + size)) in *.
      assert (Hc : tail = c ++ drop (Z.to_nat (offset + 4 + size)) buf
                   /\ blen c = size).
      { assert (Ht4 : tail = drop (Z.to_nat (offset + 4)) buf).
        { replace (Z.to_nat (offset + 4)) with (Z.to_nat offset + 4)%nat by lia.
          rewrite <- drop_drop, Hd. reflexivity. }
        unfold c, slice.
        replace (offset + 4 + size - (offset + 4)) with size by lia.
        rewrite <- Ht4. split.
        - replace (Z.to_nat (offset + 4 + size))
            with (Z.to_nat (offset + 4) + Z.to_nat size)%nat by lia.
          rewrite <- drop_drop, <- Ht4. symmetry. apply take_drop.
        - unfold blen in *. rewrite length_take. lia. }
      destruct Hc as [Htail Hlen].
      exists (c :: cs), rest. rewrite <- app_assoc. split; [reflexivity|].
      split; [|split; assumption].
      change (frames (c :: cs)) with (frame c ++ frames cs).
      unfold frame. rewrite Hlen, Hd, Htail, Hdrop, <- !app_assoc. reflexivity.
  - injection H as <- <-. apply Z.ltb_ge in Hlt.
    exists [], (drop (Z.to_nat offset) buf). rewrite app_nil_r.
    split; [reflexivity|]. split; [reflexivity|]. split; [|discriminate].
    intros _. unfold blen in *. rewrite length_drop. lia.
Qed.

(** X3 (chunks come from the buffer): whatever the chunk loop returns,
    the bytes after the twelve-byte header are the returned chunks, each
    behind its little-endian length, followed by what was not consumed:
    at most four bytes when the loop ended by itself, and a length field
    with fewer bytes behind it than it announces (at least one) when the
    loop logged a truncation. *)
Theorem chunks_are_frames_of_input
    (buf : bytes) (chunks : list bytes) (truncated : bool) :
  readChunks buf = Some (chunks, truncated) ->
  exists rest,
    drop 12 buf = frames chunks ++ rest
    /\ (truncated = false -> blen rest <= 4)
    /\ (truncated = true ->
        exists size tail, rest = le32 size ++ tail
                          /\ tail <> [] /\ blen tail < size).
Proof.
  unfold readChunks. intros H.
  change (blen FIG_KIWI_PRELUDE + 4) with 12 in H.
  apply chunkLoop_sound in H as (cs & rest & E & Hd & Hf & Ht); [|lia].
  cbn [app] in E. subst cs. exists rest. split; [exact Hd|]. split; assumption.
Qed.

Lemma chunks_are_frames_of_input_witness :
  exists rest,
    drop 12 (assemble 7 [[x0a]; [x0b; x0c]]%byte ++ le32 5 ++ [x0d]%byte)
    = frames [[x0a]; [x0b; x0c]]%byte ++ rest
    /\ (true = false -> blen rest <= 4)
    /\ (true = true ->
        exists size tail, rest = le32 size ++ tail
                          /\ tail <> [] /\ blen tail < size).
Proof.
  apply (chunks_are_frames_of_input
           (assemble 7 [[x0a]; [x0b; x0c]]%byte ++ le32 5 ++ [x0d]%byte)
           [[x0a]; [x0b; x0c]]%byte true).
  vm_compute. reflexivity.
Defined.

(** X4 (the reader always ends): on every buffer the chunk loop stops
    within [length + 1] iterations, so the framing stage always reaches
    one of its exits; when it succeeds at least two chunks were read and
    the buffer holds at least 21 bytes. *)
Theorem framing_always_ends (buf : bytes) :
  exists r, readFig buf = Some r
            /\ forall fr, r = inr fr ->
                          (2 <= length (fr_chunks fr))%nat /\ 21 <= blen buf.
Proof.
  destruct (readFig_returns buf) as [r Hr]. exists r. split; [exact Hr|].
  intros fr ->.
  destruct (decide (take 8 buf = FIG_KIWI_PRELUDE)) as [Hp|Hp].
  2:{ apply (proj1 (prelude_and_version_errors buf)) in Hp. congruence. }
  destruct (getUint32 buf 8) as [version|] eqn:Hv.
  2:{ assert (readFig buf = Some (inl VersionOutOfRange)).
      { apply (proj2 (prelude_and_version_errors buf)). split; [exact Hp|].
        destruct (Z.lt_ge_cases (blen buf) 12) as [Hlt|Hge]; [exact Hlt|].
        destruct (getUint32_in_range buf 8) as (v & Hv' & _); [lia | lia |].
        congruence. }
      congruence. }
  destruct (readFig_after_version buf version Hp Hv) as (cs & t & Hc & E).
  rewrite E in Hr.
  destruct (length cs <? 2)%nat eqn:El; [discriminate|].
  injection Hr as <-. cbn [fr_chunks]. apply Nat.ltb_ge in El.
  split; [exact El|].
  (* the second chunk was read, so its length field was followed by a byte *)
  unfold readChunks in Hc.
  destruct cs as [|c1 [|c2 cs]]; cbn [length] in El; try lia.
  clear El E.
  assert (Hfirst : forall fuel offset acc out tr,
            0 <= offset ->
            chunkLoop fuel buf offset acc = Some (out, tr) ->
            (length acc < length out)%nat -> offset + 4 < blen buf).
  { intros fuel offset acc out tr H0 H Hl.
    destruct fuel as [|fuel]; [discriminate|]. cbn [chunkLoop] in H.
    destruct (offset + 4 <? blen buf) eqn:Hlt; [apply Z.ltb_lt in Hlt; exact Hlt|].
    injection H as <- <-. lia. }
  change (blen FIG_KIWI_PRELUDE + 4) with 12 in Hc.
  cbn [chunkLoop] in Hc.
  destruct (12 + 4 <? blen buf) eqn:H16; [|discriminate].
  destruct (getUint32 buf 12) as [s1|] eqn:Hg; [|discriminate].
  cbv zeta in Hc.
  assert (0 <= s1).
  { destruct (getUint32_Some_inv _ _ _ Hg) as (_ & H4 & _).
    destruct (getUint32_in_range buf 12) as (s & Hs & Hs0); [lia | lia |].
    congruence. }
  destruct (12 + 4 + s1 >? blen buf); [discriminate|].
  apply Hfirst in Hc; [lia | lia |]. cbn [length app]. lia.
Qed.

Lemma byteZ_inj (a b : byte) : byteZ a = byteZ b -> a = b.
Proof.
  intros H. rewrite <- (byte_of_Z_byteZ a), <- (byte_of_Z_byteZ b), H. reflexivity.
Qed.

(** X5 (the magic as bytes): [isZstd] holds exactly for the chunks that
    start with the four bytes 28 B5 2F FD. *)
Theorem isZstd_iff_magic_bytes (chunk : bytes) :
  isZstd chunk = true <-> take 4 chunk = [x28; xb5; x2f; xfd]%byte.
Proof.
  rewrite isZstd_spec. unfold getUint32.
  change (0 + 4) with 4. change (0 <=? 0) with true.
  change (Z.to_nat 0) with O. cbn [drop andb].
  destruct chunk as [|b0 [|b1 [|b2 [|b3 l]]]];
    try (destruct (4 <=? _); split; intros; discriminate).
  assert (E : (4 <=? blen (b0 :: b1 :: b2 :: b3 :: l)) = true).
  { apply Z.leb_le. unfold blen. cbn [length]. lia. }
  rewrite E. cbn [take].
  pose proof (byteZ_range b0). pose proof (byteZ_range b1).
  pose proof (byteZ_range b2). pose proof (byteZ_range b3).
  split.
  - intros [= Hm]. unfold ZSTD_MAGIC in Hm.
    assert (byteZ b0 = byteZ x28 /\ byteZ b1 = byteZ xb5
            /\ byteZ b2 = byteZ x2f /\ byteZ b3 = byteZ xfd) as (E0 & E1 & E2 & E3).
    { change (byteZ x28) with 40. change (byteZ xb5) with 181.
      change (byteZ x2f) with 47. change (byteZ xfd) with 253. lia. }
    apply byteZ_inj in E0, E1, E2, E3. subst. reflexivity.
  - intros [= -> -> -> ->]. reflexivity.
Qed.

(** * Further properties of the lookup maps *)

(** X6 (last write wins): the node map holds, under each key, the last
    input record that carries the key; a key no record carries is absent,
    and records without a [guid] are not in the map. *)
Theorem node_map_last_write_wins (nodes : list Node.t) (k : string) :
  nodeMap (buildGraph nodes) !! k = last (List.filter (hasKey k) nodes)
  /\ (nodeMap (buildGraph nodes) !! k = None
      <-> forall n, n ∈ nodes -> keyOf n <> Some k)
  /\ (forall n, nodeMap (buildGraph nodes) !! k = Some n ->
                n ∈ nodes /\ keyOf n = Some k).
Proof.
  rewrite nodeMap_buildGraph. split; [reflexivity|]. split.
  - rewrite last_None. split.
    + intros E n Hn Hk.
      assert (Hin : List.In n (List.filter (hasKey k) nodes)).
      { apply filter_In. split; [apply list_elem_of_In; exact Hn|].
        apply bool_decide_eq_true. exact Hk. }
      rewrite E in Hin. destruct Hin.
    + intros Hno.
      destruct (List.filter (hasKey k) nodes) as [|n l] eqn:E; [reflexivity|].
      exfalso.
      assert (Hin : List.In n (List.filter (hasKey k) nodes))
        by (rewrite E; left; reflexivity).
      apply filter_In in Hin as [Hin Hk]. apply bool_decide_eq_true in Hk.
      apply (Hno n); [apply list_elem_of_In; exact Hin | exact Hk].
  - intros n Hl. apply last_Some in Hl as [l' Hl].
    assert (Hin : List.In n (List.filter (hasKey k) nodes)).
    { rewrite Hl. apply in_or_app. right. left. reflexivity. }
    apply filter_In in Hin as [Hin Hk]. apply bool_decide_eq_true in Hk.
    split; [apply list_elem_of_In; exact Hin | exact Hk].
Qed.

(** X7 (child lists): the child list of a key is the input records that
    name it as parent, in input order; so a record is in the child list of
    [p] exactly when it is an input record whose parent key is [p],
    whether or not [p] is itself a key of the node map, and a key that no
    record names as parent has the empty list. *)
Theorem child_lists_in_input_order (nodes : list Node.t) (p : string) :
  childrenOf (buildGraph nodes) p = List.filter (hasParent p) nodes
  /\ (forall n, n ∈ childrenOf (buildGraph nodes) p
                <-> n ∈ nodes /\ parentKey n = Some p)
  /\ ((forall n, n ∈ nodes -> parentKey n <> Some p)
      -> childrenOf (buildGraph nodes) p = []).
Proof.
  rewrite childrenOf_buildGraph. split; [reflexivity|]. split.
  - intros n. rewrite list_elem_of_In, filter_In, <- list_elem_of_In.
    unfold hasParent. rewrite bool_decide_eq_true. reflexivity.
  - intros Hno.
    destruct (List.filter (hasParent p) nodes) as [|n l] eqn:E; [reflexivity|].
    exfalso.
    assert (Hin : List.In n (List.filter (hasParent p) nodes))
      by (rewrite E; left; reflexivity).
    apply filter_In in Hin as [Hin Hp]. apply bool_decide_eq_true in Hp.
    apply (Hno n); [apply list_elem_of_In; exact Hin | exact Hp].
Qed.

(** X8 (two batches of records): building the maps from one list followed
    by another gives, for every key, the child list of the first followed
    by the child list of the second, and the node-map record of the second
    when it has one, else that of the first. *)
Theorem maps_of_appended_input (l1 l2 : list Node.t) (k : string) :
  childrenOf (buildGraph (l1 ++ l2)) k
  = childrenOf (buildGraph l1) k ++ childrenOf (buildGraph l2) k
  /\ nodeMap (buildGraph (l1 ++ l2)) !! k
     = match nodeMap (buildGraph l2) !! k with
       | Some n => Some n
       | None => nodeMap (buildGraph l1) !! k
       end.
Proof.
  split.
  - rewrite !childrenOf_buildGraph. apply List.filter_app.
  - rewrite !nodeMap_buildGraph, List.filter_app.
    destruct (List.filter (hasKey k) l2) as [|n l] eqn:E using rev_ind.
    + rewrite app_nil_r. reflexivity.
    + rewrite app_assoc, !last_snoc. reflexivity.
Qed.

(** ** Keys do not collide *)

Lemma pretty_N_go_noColon (x : N) :
  forall s, noColon s = true -> noColon (pretty_N_go x s) = true.
Proof.
  induction (N.lt_wf_0 x) as [x _ IH]. intros s Hs.
  destruct (N.eq_dec x 0%N) as [-> | Hx].
  - rewrite pretty_N_go_0. exact Hs.
  - rewrite pretty_N_go_step by lia. apply IH.
    + apply N.div_lt; lia.
    + cbn [noColon]. rewrite Hs, andb_true_r.
      unfold pretty_N_char. repeat case_match; reflexivity.
Qed.

Lemma pretty_N_noColon (x : N) : noColon (pretty x) = true.
Proof.
  unfold pretty, pretty_N. case_decide; [reflexivity|].
  apply pretty_N_go_noColon. reflexivity.
Qed.

Lemma split_at_colon (a a' b b' : string) :
  noColon a = true -> noColon a' = true ->
  a +:+ String ":" b = a' +:+ String ":" b' ->
  a = a' /\ b = b'.
Proof.
  revert a'. induction a as [|c a IH]; intros [|c' a'] Ha Ha' E; cbn in *.
  - injection E as <-. auto.
  - injection E as <- _. rewrite Ascii.eqb_refl in Ha'. discriminate.
  - injection E as -> _. rewrite Ascii.eqb_refl in Ha. discriminate.
  - injection E as <- E.
    apply andb_true_iff in Ha as [_ Ha]. apply andb_true_iff in Ha' as [_ Ha'].
    destruct (IH a' Ha Ha' E) as [<- <-]. auto.
Qed.

(** X9 (keys do not collide): [guidKey] gives two identifiers the same
    key only when their session and local numbers are the same. *)
Theorem guidKey_injective (g1 g2 : Guid) :
  guidKey (Some g1) = guidKey (Some g2) -> g1 = g2.
Proof.
  destruct g1 as [s1 l1], g2 as [s2 l2]. cbn [guidKey sessionID localID].
  intros [= E].
  change (pretty s1 +:+ String ":" (pretty l1) = pretty s2 +:+ String ":" (pretty l2)) in E.
  apply split_at_colon in E as [Es El]; try apply pretty_N_noColon.
  apply (inj pretty) in Es, El. subst. reflexivity.
Qed.

Lemma guidKey_injective_witness : mkGuid 1 23 = mkGuid 1 23.
Proof.
  apply (guidKey_injective (mkGuid 1 23) (mkGuid 1 23)). reflexivity.
Defined.

(** * Further properties of the shape tree, the palette and the count *)

Lemma fold_countVectors (cs : list Shape.t) (init : Z) :
  fold_left (fun count c => count + countVectors c) cs init
  = init + fold_right (fun c acc => countVectors c + acc) 0 cs.
Proof.
  revert init. induction cs as [|c cs IH]; intros init; cbn [fold_left fold_right].
  - lia.
  - rewrite IH. lia.
Qed.

Lemma countVectors_nodes (t : Shape.t) :
  countVectors t
  = Z.of_nat (length (List.filter (typeIs "VECTOR") (nodesOf t))).
Proof.
  induction t as [t IH] using Shape_tree_ind.
  destruct t as [ty nm gd sz ps fs ss op hb children].
  cbn [countVectors nodesOf Shape.children List.filter] in *.
  rewrite fold_countVectors.
  assert (E : fold_right (fun c acc => countVectors c + acc) 0 children
              = Z.of_nat (length (List.filter (typeIs "VECTOR")
                                    (concat (map nodesOf children))))).
  { induction IH as [|c cs Hc _ IHcs]; [reflexivity|].
    cbn [fold_right map concat]. rewrite List.filter_app, length_app, IHcs, Hc. lia. }
  rewrite E.
  destruct (typeIs "VECTOR" _); cbn [length]; lia.
Qed.

(** X11 (vector count): [countVectors] is the number of nodes of type
    VECTOR in the tree, the root included; it is never negative and never
    more than the number of nodes. *)
Theorem countVectors_counts_vectors (t : Shape.t) :
  countVectors t
  = Z.of_nat (length (List.filter (typeIs "VECTOR") (nodesOf t)))
  /\ 0 <= countVectors t <= Z.of_nat (length (nodesOf t)).
Proof.
  rewrite countVectors_nodes. split; [reflexivity|].
  pose proof (filter_length_le (typeIs "VECTOR") (nodesOf t)). lia.
Qed.

(** ** The palette *)

Lemma pushColor_spec (colors : list string) (c : option string) (x : string) :
  x ∈ pushColor colors c <-> x ∈ colors \/ (c = Some x /\ x <> "").
Proof.
  unfold pushColor. destruct c as [s|].
  - cbn [truthy]. destruct (decide (s = "")) as [-> | Hne].
    + rewrite bool_decide_eq_true_2 by reflexivity. cbn [negb andb].
      split; [auto|]. intros [H | [[= <-] Hx]]; [exact H | congruence].
    + rewrite (bool_decide_eq_false_2 (s = "")) by exact Hne. cbn [negb andb].
      destruct (decide (s ∈ colors)) as [Hin | Hnin].
      * rewrite bool_decide_eq_true_2 by exact Hin. cbn [negb].
        split; [auto|]. intros [H | [[= <-] _]]; [exact H | exact Hin].
      * rewrite bool_decide_eq_false_2 by exact Hnin. cbn [negb].
        rewrite elem_of_app, list_elem_of_singleton. split.
        -- intros [H | ->]; [auto | right; auto].
        -- intros [H | [[= <-] _]]; auto.
  - split; [auto|]. intros [H | [[=] _]]. exact H.
Qed.

Lemma fold_pushColor_spec (l : list (option string)) (colors : list string) (x : string) :
  x ∈ fold_left pushColor l colors <-> x ∈ colors \/ (Some x ∈ l /\ x <> "").
Proof.
  revert colors. induction l as [|c l IH]; intros colors; cbn [fold_left].
  - split; [auto|]. intros [H | [H _]]; [exact H|]. apply elem_of_nil in H. contradiction.
  - rewrite IH, pushColor_spec, elem_of_cons. split.
    + intros [[H | [-> Hx]] | [H Hx]]; auto.
    + intros [H | [[[= <-] | H] Hx]]; auto.
Qed.

Lemma pushColor_NoDup (colors : list string) (c : option string) :
  NoDup colors -> NoDup (pushColor colors c).
Proof.
  intros Hnd. unfold pushColor. destruct c as [s|]; [|exact Hnd].
  destruct (truthy (Some s)); cbn [andb]; [|exact Hnd].
  destruct (decide (s ∈ colors)) as [Hin | Hnin].
  - rewrite bool_decide_eq_true_2 by exact Hin. exact Hnd.
  - rewrite bool_decide_eq_false_2 by exact Hnin. cbn [negb].
    apply NoDup_app. split; [exact Hnd|]. split.
    + intros x Hx Hs. apply list_elem_of_singleton in Hs. subst. contradiction.
    + apply NoDup_singleton.
Qed.

Lemma pushColor_prefix (colors : list string) (c : option string) :
  exists added, pushColor colors c = colors ++ added.
Proof.
  unfold pushColor. destruct c as [s|]; [|exists []; rewrite app_nil_r; reflexivity].
  destruct (truthy (Some s) && negb (bool_decide (s ∈ colors))).
  - exists [s]. reflexivity.
  - exists []. rewrite app_nil_r. reflexivity.
Qed.

Lemma fold_pushColor_keeps (l : list (option string)) (colors : list string) :
  NoDup colors ->
  NoDup (fold_left pushColor l colors)
  /\ exists added, fold_left pushColor l colors = colors ++ added.
Proof.
  revert colors. induction l as [|c l IH]; intros colors Hnd; cbn [fold_left].
  - split; [exact Hnd|]. exists []. rewrite app_nil_r. reflexivity.
  - destruct (IH _ (pushColor_NoDup colors c Hnd)) as [Hnd' [a2 E2]].
    split; [exact Hnd'|].
    destruct (pushColor_prefix colors c) as [a1 E1].
    exists (a1 ++ a2). rewrite E2, E1, app_assoc. reflexivity.
Qed.

Lemma collectColors_keeps (t : Shape.t) :
  forall colors,
    NoDup colors ->
    NoDup (collectColors t colors)
    /\ exists added, collectColors t colors = colors ++ added.
Proof.
  induction t as [t IH] using Shape_tree_ind.
  destruct t as [ty nm gd sz ps fs ss op hb children].
  cbn [collectColors Shape.fills Shape.strokes Shape.children] in *.
  intros colors Hnd.
  destruct (fold_pushColor_keeps (map f_color fs) colors Hnd) as [N1 [a1 E1]].
  destruct (fold_pushColor_keeps (map s_color ss) _ N1) as [N2 [a2 E2]].
  assert (G : exists a,
             fold_left pushColor (map s_color ss)
               (fold_left pushColor (map f_color fs) colors) = colors ++ a)
    by (exists (a1 ++ a2); rewrite E2, E1, app_assoc; reflexivity).
  clear E1 E2 N1 a1 a2. revert N2 G.
  generalize (fold_left pushColor (map s_color ss)
                (fold_left pushColor (map f_color fs) colors)).
  intros acc N2 G.
  revert acc N2 G.
  induction IH as [|c cs Hc _ IHcs]; intros acc N2 G; cbn [fold_left].
  - split; assumption.
  - destruct (Hc acc N2) as [N3 [a3 E3]]. apply IHcs; [exact N3|].
    destruct G as [a ->]. exists (a ++ a3). rewrite E3, app_assoc. reflexivity.
Qed.

(** X12 (palette keeps order and has no duplicates): [collectColors]
    only appends to the array it is given, and never adds a colour a
    second time; so the palette of an icon, collected into the empty
    array, has no duplicates. *)
Theorem palette_appends_without_duplicates (t : Shape.t) (colors : list string) :
  NoDup colors ->
  NoDup (collectColors t colors)
  /\ exists added, collectColors t colors = colors ++ added.
Proof.
  apply collectColors_keeps.
Qed.

Lemma palette_appends_without_duplicates_witness :
  NoDup (collectColors
           (sampleShape "BOOLEAN_OPERATION" [mkFill (Some "#1677FF") 1] []
              [sampleShape "VECTOR" [mkFill (Some "#1677FF") 1]
                 [mkStroke (Some "#070828") 1] []])
           ["#070828"])
  /\ exists added,
       collectColors
         (sampleShape "BOOLEAN_OPERATION" [mkFill (Some "#1677FF") 1] []
            [sampleShape "VECTOR" [mkFill (Some "#1677FF") 1]
               [mkStroke (Some "#070828") 1] []])
         ["#070828"]
       = ["#070828"] ++ added.
Proof.
  apply (palette_appends_without_duplicates _ ["#070828"]).
  apply NoDup_singleton.
Defined.

Lemma collectColors_spec (t : Shape.t) :
  forall (colors : list string) (x : string),
    x ∈ collectColors t colors
    <-> x ∈ colors \/ (x <> "" /\ exists s, s ∈ nodesOf t /\ paintedWith s x).
Proof.
  induction t as [t IH] using Shape_tree_ind.
  intros colors x.
  destruct t as [ty nm gd sz ps fs ss op hb children].
  cbn [collectColors Shape.fills Shape.strokes Shape.children] in *.
  set (root := Shape.mk ty nm gd sz ps fs ss op hb children).
  assert (Hchildren :
    forall acc,
      x ∈ fold_left (fun acc c => collectColors c acc) children acc
      <-> x ∈ acc \/ (x <> "" /\ exists s, s ∈ concat (map nodesOf children)
                                          /\ paintedWith s x)).
  { clear root. induction IH as [|c cs Hc _ IHcs]; intros acc; cbn [fold_left map concat].
    - split; [auto|]. intros [H | (_ & s & Hs & _)]; [exact H|].
      apply elem_of_nil in Hs. contradiction.
    - rewrite IHcs, Hc. split.
      + intros [[H | (Hx & s & Hs & Hp)] | (Hx & s & Hs & Hp)]; [auto | |].
        * right. split; [exact Hx|]. exists s. split; [|exact Hp].
          apply elem_of_app. left. exact Hs.
        * right. split; [exact Hx|]. exists s. split; [|exact Hp].
          apply elem_of_app. right. exact Hs.
      + intros [H | (Hx & s & Hs & Hp)]; [auto|].
        apply elem_of_app in Hs as [Hs | Hs].
        * left. right. split; [exact Hx|]. exists s. auto.
        * right. split; [exact Hx|]. exists s. auto. }
  rewrite Hchildren, !fold_pushColor_spec. cbn [nodesOf Shape.children].
  split.
  - intros [[[H | [H Hx]] | [H Hx]] | (Hx & s & Hs & Hp)]; [auto | | |].
    + right. split; [exact Hx|]. exists root. split; [left|]. left. exact H.
    + right. split; [exact Hx|]. exists root. split; [left|]. right. exact H.
    + right. split; [exact Hx|]. exists s. split; [right; exact Hs | exact Hp].
  - intros [H | (Hx & s & Hs & Hp)]; [auto|].
    apply elem_of_cons in Hs as [-> | Hs].
    + destruct Hp as [Hp | Hp]; cbn [root Shape.fills Shape.strokes] in Hp; auto.
    + right. split; [exact Hx|]. exists s. auto.
Qed.

(** X13 (what the palette holds): a colour is in the palette of a shape
    tree exactly when it is not the empty string and is the colour of a
    fill or of a stroke of some node of the tree. *)
Theorem palette_is_the_colours_of_the_tree (t : Shape.t) (col : string) :
  col ∈ collectColors t []
  <-> col <> "" /\ exists s, s ∈ nodesOf t /\ paintedWith s col.
Proof.
  rewrite collectColors_spec. split.
  - intros [H | H]; [apply elem_of_nil in H; contradiction | exact H].
  - auto.
Qed.

(** ** The primary colour is a colour of the tree *)

Lemma firstTruthy_elem (l : list (option string)) (c : string) :
  firstTruthy l = Some c -> Some c ∈ l.
Proof.
  induction l as [|o l IH]; cbn [firstTruthy]; [discriminate|].
  destruct (truthy o).
  - intros ->. left.
  - intros H. right. apply IH. exact H.
Qed.

Lemma firstFillColor_painted (t : Shape.t) (c : string) :
  firstFillColor (Shape.fills t) = Some c -> paintedWith t c.
Proof.
  unfold paintedWith. destruct (Shape.fills t) as [|f fs]; [discriminate|].
  cbn [firstFillColor map]. intros ->. left. left.
Qed.

Lemma firstStrokeColor_painted (t : Shape.t) (c : string) :
  firstStrokeColor (Shape.strokes t) = Some c -> paintedWith t c.
Proof.
  unfold paintedWith. destruct (Shape.strokes t) as [|s ss]; [discriminate|].
  cbn [firstStrokeColor map]. intros ->. right. left.
Qed.

Lemma extractPrimaryColor_painted (t : Shape.t) :
  forall c, extractPrimaryColor t = Some c ->
            exists s, s ∈ nodesOf t /\ paintedWith s c.
Proof.
  induction t as [t IH] using Shape_tree_ind. intros c.
  rewrite extractPrimaryColor_unfold.
  assert (Hroot : t ∈ nodesOf t) by (destruct t; left).
  repeat match goal with
         | |- (if ?b then _ else _) = _ -> _ => destruct b
         end;
    try (intros H; exists t; split; [exact Hroot|];
         first [apply firstFillColor_painted; exact H
               |apply firstStrokeColor_painted; exact H]).
  unfold fromChildrenOrStroke.
  assert (Hchild : forall cs, (forall x, x ∈ cs -> x ∈ Shape.children t) ->
                              firstTruthy (map extractPrimaryColor cs) = Some c ->
                              exists s, s ∈ nodesOf t /\ paintedWith s c).
  { intros cs Hsub H. apply firstTruthy_elem in H.
    apply list_elem_of_In, in_map_iff in H as (child & Hc & Hin).
    apply list_elem_of_In, Hsub in Hin.
    rewrite Forall_forall in IH.
    destruct (IH child Hin c Hc) as (s & Hs & Hp).
    exists s. split; [|exact Hp].
    destruct t as [ty nm gd sz ps fs ss op hb children].
    cbn [nodesOf Shape.children] in *. right.
    apply elem_of_concat_map. exists child. auto. }
  destruct (firstTruthy (map extractPrimaryColor
                           (List.filter notRoundedRectangle (Shape.children t))))
    as [c1|] eqn:E1.
  - intros [= ->]. refine (Hchild _ _ E1).
    intros x Hx. apply list_elem_of_In, filter_In in Hx as [Hx _].
    apply list_elem_of_In. exact Hx.
  - destruct (firstTruthy (map extractPrimaryColor (Shape.children t)))
      as [c2|] eqn:E2.
    + intros [= ->]. apply (Hchild _ (fun x Hx => Hx) E2).
    + intros H. exists t. split; [exact Hroot|].
      apply firstStrokeColor_painted.
      destruct (Shape.strokes t); [discriminate | exact H].
Qed.

(** X14 (the primary colour is in the palette): whatever
    [extractPrimaryColor] returns is the colour of a fill or a stroke of
    some node of the tree, and when it is not the empty string it is one
    of the colours [collectColors] puts in the palette; a tree without any
    fill or stroke has no primary colour. *)
Theorem primary_color_in_palette (t : Shape.t) :
  (forall c, extractPrimaryColor t = Some c ->
             (exists s, s ∈ nodesOf t /\ paintedWith s c)
             /\ (c <> "" -> c ∈ collectColors t []))
  /\ ((forall s, s ∈ nodesOf t -> Shape.fills s = [] /\ Shape.strokes s = [])
      -> extractPrimaryColor t = None).
Proof.
  split.
  - intros c H. pose proof (extractPrimaryColor_painted t c H) as Hp.
    split; [exact Hp|]. intros Hne.
    apply collectColors_spec. auto.
  - intros Hnone. destruct (extractPrimaryColor t) as [c|] eqn:E; [|reflexivity].
    destruct (extractPrimaryColor_painted t c E) as (s & Hs & Hp).
    destruct (Hnone s Hs) as [Hf Hst]. unfold paintedWith in Hp.
    rewrite Hf, Hst in Hp. cbn [map] in Hp.
    destruct Hp as [Hp | Hp]; apply elem_of_nil in Hp; contradiction.
Qed.

(** ** Colours of built trees *)

Lemma colorToHex_present (c : Color) : hexColour (colorToHex (Some c)).
Proof. unfold hexColour, colorToHex. eexists. reflexivity. Qed.

Lemma fillsOf_hex (n : Node.t) :
  Forall (fun f => hexColour (f_color f)) (fillsOf n).
Proof.
  unfold fillsOf. apply Forall_map, Forall_forall. intros p Hp.
  apply list_elem_of_In, filter_In in Hp as [_ Hc]. unfold hasColor in Hc. cbn [f_color].
  destruct (Paint.color p) as [c|]; [apply colorToHex_present | discriminate].
Qed.

Lemma strokesOf_hex (n : Node.t) :
  Forall (fun s => hexColour (s_color s) /\ ~ (s_width s == 0)%Q) (strokesOf n).
Proof.
  unfold strokesOf. apply Forall_map, Forall_forall. intros p Hp.
  apply list_elem_of_In, filter_In in Hp as [_ Hc]. unfold hasColor in Hc.
  cbn [s_color s_width]. split.
  - destruct (Paint.color p) as [c|]; [apply colorToHex_present | discriminate].
  - destruct (Node.strokeWeight n) as [w|]; cbn [truthyQ default]; [|discriminate].
    destruct (Qeq_bool w 0) eqn:E; cbn [negb]; [discriminate|].
    intros Hw. apply Qeq_bool_iff in Hw. unfold id in Hw. congruence.
Qed.

Lemma built_tree_hex (fuel : nat) (g : Graph) (key : string) (d : Z) (t : Shape.t) :
  buildShapeTree fuel g key d = Some (Some t) ->
  forall s, s ∈ nodesOf t ->
            Forall (fun f => hexColour (f_color f)) (Shape.fills s)
            /\ Forall (fun st => hexColour (s_color st) /\ ~ (s_width st == 0)%Q)
                      (Shape.strokes s).
Proof.
  intros H s Hs. pose proof (buildShapeTree_nodes _ _ _ _ _ H) as Hall.
  rewrite Forall_forall in Hall.
  destruct (Hall s Hs) as (n & _ & _ & _ & -> & -> & _).
  split; [apply fillsOf_hex | apply strokesOf_hex].
Qed.

Lemma painted_hex (s : Shape.t) (c : string) :
  Forall (fun f => hexColour (f_color f)) (Shape.fills s) ->
  Forall (fun st => hexColour (s_color st) /\ ~ (s_width st == 0)%Q) (Shape.strokes s) ->
  paintedWith s c -> exists h, c = String "#" h.
Proof.
  intros Hf Hs [Hp | Hp].
  - apply list_elem_of_In, in_map_iff in Hp as (f & Hc & Hin).
    rewrite Forall_forall in Hf. apply list_elem_of_In in Hin.
    destruct (Hf f Hin) as [h Hh]. exists h. congruence.
  - apply list_elem_of_In, in_map_iff in Hp as (st & Hc & Hin).
    rewrite Forall_forall in Hs. apply list_elem_of_In in Hin.
    destruct (Hs st Hin) as [[h Hh] _]. exists h. congruence.
Qed.

(** X15 (colours of a built tree): in a tree [buildShapeTree] returns,
    every fill and every stroke has a colour string that starts with #,
    every stroke has a width other than 0, and the primary colour and
    every palette entry start with # too; so none of the truthiness tests
    on colours ever drops a colour of a built tree. *)
Theorem built_tree_colours_are_hex
    (fuel : nat) (g : Graph) (key : string) (depth : Z) (t : Shape.t) :
  buildShapeTree fuel g key depth = Some (Some t) ->
  (forall s, s ∈ nodesOf t ->
             Forall (fun f => hexColour (f_color f)) (Shape.fills s)
             /\ Forall (fun st => hexColour (s_color st) /\ ~ (s_width st == 0)%Q)
                       (Shape.strokes s))
  /\ (forall c, extractPrimaryColor t = Some c -> exists h, c = String "#" h)
  /\ (forall c, c ∈ collectColors t [] -> exists h, c = String "#" h).
Proof.
  intros H. pose proof (built_tree_hex _ _ _ _ _ H) as Hhex.
  split; [exact Hhex|]. split.
  - intros c Hc. destruct (extractPrimaryColor_painted t c Hc) as (s & Hs & Hp).
    destruct (Hhex s Hs) as [Hf Hst]. eapply painted_hex; eassumption.
  - intros c Hc. apply collectColors_spec in Hc as [Hc | (_ & s & Hs & Hp)].
    + apply elem_of_nil in Hc. contradiction.
    + destruct (Hhex s Hs) as [Hf Hst]. eapply painted_hex; eassumption.
Qed.

Lemma built_tree_colours_are_hex_witness :
  buildShapeTree 2 (buildGraph paintedIcon) "0:1" 0 = Some (Some paintedTree)
  /\ exists h, "#1677ff" = String "#" h.
Proof.
  assert (E : buildShapeTree 2 (buildGraph paintedIcon) "0:1" 0
              = Some (Some paintedTree)) by (vm_compute; reflexivity).
  split; [exact E|].
  apply (proj1 (proj2 (built_tree_colours_are_hex 2 (buildGraph paintedIcon)
                         "0:1" 0 paintedTree E)) "#1677ff").
  vm_compute. reflexivity.
Defined.

(** * Further properties of the icon inventory *)

Lemma iconContainer_inv (fuel : nat) (g : Graph) (n : Node.t) (ic : IconContainer) :
  iconContainer fuel g n = Some (Some ic) ->
  exists x y key t,
    Node.size n = Some (x, y)
    /\ Math_round x <= 32 /\ Math_round y <= 32
    /\ keyOf n = Some key
    /\ hasVectorDescendant g key 5 = true
    /\ buildShapeTree fuel g key 0 = Some (Some t)
    /\ ic = mkIcon (Node.name n) key (Math_round x, Math_round y)
              (match match parentKey n with
                     | Some pk => nodeMap g !! pk
                     | None => None
                     end with
               | Some p => Node.name p
               | None => None
               end)
              (extractPrimaryColor t) (collectColors t []) (countVectors t) t.
Proof.
  unfold iconContainer, keyOf.
  destruct (Node.size n) as [[x y]|]; [|discriminate].
  destruct ((Math_round x >? 32) || (Math_round y >? 32)) eqn:Eb; [discriminate|].
  apply orb_false_iff in Eb as [Ex Ey].
  rewrite Z.gtb_ltb in Ex, Ey. apply Z.ltb_ge in Ex, Ey.
  destruct (guidKey (Node.guid n)) as [key|]; [|discriminate].
  destruct (hasVectorDescendant g key 5) eqn:Ev; [|discriminate]. cbn [negb].
  destruct (buildShapeTree fuel g key 0) as [[t|]|] eqn:Eb; try discriminate.
  intros [= <-]. exists x, y, key, t. split_and!; try reflexivity; assumption.
Qed.

Lemma eachFrame_order (fuel : nat) (g : Graph) (frames : list Node.t) :
  forall acc out,
    eachFrame fuel g frames acc = Some out ->
    exists pushed, out = acc ++ pushed
                   /\ map ic_guid pushed `sublist_of` omap keyOf frames.
Proof.
  induction frames as [|n rest IH]; intros acc out H; cbn [eachFrame] in H.
  - injection H as <-. exists []. rewrite app_nil_r. split; [reflexivity | constructor].
  - cbn [omap list_omap].
    destruct (iconContainer fuel g n) as [[ic|]|] eqn:E; [| |discriminate].
    + apply IH in H as (pushed & -> & Hsub).
      exists (ic :: pushed). rewrite <- app_assoc. split; [reflexivity|].
      apply iconContainer_inv in E as (x & y & key & t & _ & _ & _ & Hk & _ & _ & ->).
      rewrite Hk. cbn [map ic_guid]. apply sublist_skip. exact Hsub.
    + apply IH in H as (pushed & -> & Hsub). exists pushed. split; [reflexivity|].
      destruct (keyOf n); [apply sublist_cons|]; exact Hsub.
Qed.

(** X16 (what an icon record holds): every icon [findIcons] returns comes
    from a FRAME record of the input with that key and name, has a rounded
    width and height of at most 32, carries the shape tree built at its
    key with the colour, palette and count computed from that tree, and
    the icons come in the input order of their frames. *)
Theorem icons_come_from_small_frames
    (fuel : nat) (nodes : list Node.t) (out : list IconContainer) :
  findIcons fuel nodes = Some out ->
  (forall ic, ic ∈ out ->
     fst (ic_size ic) <= 32 /\ snd (ic_size ic) <= 32
     /\ (exists n, n ∈ nodes /\ Node.type n = "FRAME"
                   /\ keyOf n = Some (ic_guid ic) /\ ic_name ic = Node.name n)
     /\ buildShapeTree fuel (buildGraph nodes) (ic_guid ic) 0
        = Some (Some (ic_shapeTree ic))
     /\ ic_primaryColor ic = extractPrimaryColor (ic_shapeTree ic)
     /\ ic_allColors ic = collectColors (ic_shapeTree ic) []
     /\ ic_vectorCount ic = countVectors (ic_shapeTree ic))
  /\ map ic_guid out `sublist_of` omap keyOf (List.filter isFrame nodes).
Proof.
  intros H. split.
  - intros ic Hic. apply (findIcons_elem _ _ _ H) in Hic as (n & Hn & Hf & E).
    apply iconContainer_inv in E as (x & y & key & t & _ & Hx & Hy & Hk & _ & Hb & ->).
    cbn. split_and!; try reflexivity; try assumption.
    exists n. split_and!; try reflexivity; try assumption.
    apply bool_decide_eq_true in Hf. exact Hf.
  - unfold findIcons in H. apply eachFrame_order in H as (pushed & -> & Hsub).
    exact Hsub.
Qed.

Lemma icons_come_from_small_frames_witness :
  findIcons 2 paintedIcon = Some [paintedRecord]
  /\ map ic_guid [paintedRecord]
       `sublist_of` omap keyOf (List.filter isFrame paintedIcon).
Proof.
  assert (E : findIcons 2 paintedIcon = Some [paintedRecord])
    by (vm_compute; reflexivity).
  split; [exact E|].
  apply (icons_come_from_small_frames 2 paintedIcon [paintedRecord] E).
Defined.

(** X17 (an icon's primary colour): for every icon [findIcons] returns,
    the primary colour, when there is one, is an entry of the icon's
    palette and starts with #, and the palette has no duplicates. *)
Theorem icon_primary_colour_in_its_palette
    (fuel : nat) (nodes : list Node.t) (out : list IconContainer) (ic : IconContainer) :
  findIcons fuel nodes = Some out ->
  ic ∈ out ->
  (forall c, ic_primaryColor ic = Some c ->
             c ∈ ic_allColors ic /\ exists h, c = String "#" h)
  /\ NoDup (ic_allColors ic).
Proof.
  intros H Hic. apply (findIcons_elem _ _ _ H) in Hic as (n & Hn & Hf & E).
  apply iconContainer_inv in E as (x & y & key & t & _ & _ & _ & _ & _ & Hb & ->).
  cbn [ic_primaryColor ic_allColors].
  split.
  - intros c Hc. destruct (extractPrimaryColor_painted t c Hc) as (s & Hs & Hp).
    destruct (built_tree_hex _ _ _ _ _ Hb s Hs) as [Hfl Hst].
    destruct (painted_hex s c Hfl Hst Hp) as [h ->].
    split; [|eauto]. apply collectColors_spec. right.
    split; [discriminate|]. eauto.
  - apply collectColors_keeps. constructor.
Qed.

Lemma icon_primary_colour_in_its_palette_witness :
  findIcons 2 paintedIcon = Some [paintedRecord]
  /\ "#1677ff" ∈ ic_allColors paintedRecord
  /\ NoDup (ic_allColors paintedRecord).
Proof.
  assert (E : findIcons 2 paintedIcon = Some [paintedRecord])
    by (vm_compute; reflexivity).
  split; [exact E|].
  destruct (icon_primary_colour_in_its_palette 2 paintedIcon [paintedRecord]
              paintedRecord E (list_elem_of_here _ _)) as [Hc Hnd].
  split; [|exact Hnd].
  apply (Hc "#1677ff"). vm_compute. reflexivity.
Defined.

Example paintedIcon_inventory :
  option_map (map (fun ic => (ic_primaryColor ic, ic_allColors ic, ic_vectorCount ic)))
    (findIcons 2 paintedIcon)
  = Some [(Some "#1677ff", ["#1677ff"; "#070828"], 1)].
Proof. vm_compute. reflexivity. Qed.

(** ** The run ends on input without parent cycles *)

Lemma eachFrame_returns (fuel : nat) (g : Graph) (frames : list Node.t) :
  (forall n, n ∈ frames -> is_Some (iconContainer fuel g n)) ->
  forall acc, is_Some (eachFrame fuel g frames acc).
Proof.
  induction frames as [|n rest IH]; intros Hall acc; cbn [eachFrame]; [eauto|].
  destruct (Hall n (list_elem_of_here _ _)) as [r ->].
  assert (Hrest : forall m, m ∈ rest -> is_Some (iconContainer fuel g m))
    by (intros m Hm; apply Hall; right; exact Hm).
  destruct r; apply IH; exact Hrest.
Qed.

(** X18 (the run ends on acyclic input): when the parent links of the
    input go strictly down some rank, [findIcons] returns its icon list as
    soon as it is given more levels than the rank of any key. *)
Theorem findIcons_returns_on_acyclic_input
    (nodes : list Node.t) (rank : string -> nat) (fuel : nat) :
  ranked nodes rank ->
  (forall n k, n ∈ nodes -> keyOf n = Some k -> (rank k < fuel)%nat) ->
  exists out, findIcons fuel nodes = Some out.
Proof.
  intros Hr Hfuel. unfold findIcons. apply eachFrame_returns.
  intros n Hn. apply list_elem_of_In, filter_In in Hn as [Hn _].
  apply list_elem_of_In in Hn.
  unfold iconContainer.
  destruct (Node.size n) as [[x y]|]; [|eauto].
  destruct ((Math_round x >? 32) || (Math_round y >? 32)); [eauto|].
  destruct (guidKey (Node.guid n)) as [key|] eqn:Ek; [|eauto].
  destruct (negb (hasVectorDescendant (buildGraph nodes) key 5)); [eauto|].
  destruct (buildShapeTree_returns nodes rank Hr fuel key 0 (Hfuel n key Hn Ek))
    as [r ->].
  destruct r; eauto.
Qed.

Lemma findIcons_returns_on_acyclic_input_witness :
  exists out, findIcons 3 iconOverBackground = Some out.
Proof.
  apply (findIcons_returns_on_acyclic_input iconOverBackground
           (fun k => if bool_decide (k = "0:1") then 2%nat
                     else if bool_decide (k = "0:2") then 1%nat else 0%nat) 3).
  - intros c p k Hc Hp Hk.
    apply list_elem_of_In in Hc. cbn [iconOverBackground In] in Hc.
    destruct Hc as [<- | [<- | [<- | []]]]; try discriminate Hp;
      injection Hp as <-; injection Hk as <-; vm_compute; lia.
  - intros n k Hn Hk.
    apply list_elem_of_In in Hn. cbn [iconOverBackground In] in Hn.
    destruct Hn as [<- | [<- | [<- | []]]]; injection Hk as <-; vm_compute; lia.
Defined.

(** ** The bounded search *)

Lemma hasVectorDescendant_mono (g : Graph) (d : nat) :
  forall (key : string) (d' : nat),
    (d <= d')%nat ->
    hasVectorDescendant g key d = true -> hasVectorDescendant g key d' = true.
Proof.
  induction d as [|d IH]; intros key d' Hle H; [discriminate|].
  destruct d' as [|d']; [lia|].
  rewrite hasVectorDescendant_step in *.
  apply existsb_exists in H as (c & Hc & Hv). apply existsb_exists.
  exists c. split; [exact Hc|].
  apply orb_true_iff in Hv as [Hv | Hv]; apply orb_true_iff; [left; exact Hv|].
  right. destruct (keyOf c) as [ck|]; [|discriminate].
  apply (IH ck d'); [lia | exact Hv].
Qed.

(** X19 (the depth bound): a search that succeeds with some depth limit
    succeeds with every larger one; with limit 0, or below a key that has
    no child record, it fails; and with limit 1 it succeeds exactly when
    one of the child records is a VECTOR or a BOOLEAN_OPERATION. *)
Theorem descendant_search_depth (g : Graph) (key : string) :
  (forall d d', (d <= d')%nat -> hasVectorDescendant g key d = true ->
                hasVectorDescendant g key d' = true)
  /\ hasVectorDescendant g key 0 = false
  /\ (childrenOf g key = [] -> forall d, hasVectorDescendant g key d = false)
  /\ (hasVectorDescendant g key 1 = true
      <-> exists c, c ∈ childrenOf g key /\ isVectorLike c = true).
Proof.
  split; [intros d d'; apply hasVectorDescendant_mono|].
  split; [reflexivity|]. split.
  - intros E [|d]; [reflexivity|]. rewrite hasVectorDescendant_step, E. reflexivity.
  - rewrite hasVectorDescendant_step, existsb_exists. split.
    + intros (c & Hc & Hv). exists c. split; [apply list_elem_of_In; exact Hc|].
      apply orb_true_iff in Hv as [Hv | Hv]; [exact Hv|].
      destruct (keyOf c); discriminate.
    + intros (c & Hc & Hv). exists c. split; [apply list_elem_of_In; exact Hc|].
      rewrite Hv. reflexivity.
Qed.

(** * The colour strings *)

Lemma roundHalfEven_between (q : Q) (a b : Z) :
  (inject_Z a <= q <= inject_Z b)%Q -> a <= roundHalfEven q <= b.
Proof.
  intros [Ha Hb]. unfold roundHalfEven.
  assert (Hfa : a <= Qfloor q).
  { apply Qfloor_resp_le in Ha. rewrite Qfloor_Z in Ha. exact Ha. }
  assert (Hfb : Qfloor q <= b).
  { apply Qfloor_resp_le in Hb. rewrite Qfloor_Z in Hb. exact Hb. }
  assert (Hup : (inject_Z (Qfloor q) < q)%Q -> Qfloor q < b).
  { intros Hlt. destruct (Z.eq_dec (Qfloor q) b) as [E|]; [|lia].
    rewrite E in Hlt. lra. }
  destruct (q - inject_Z (Qfloor q) ?= 1 # 2)%Q eqn:E.
  - apply Qeq_alt in E. destruct (Z.even (Qfloor q)); [lia|].
    assert (Qfloor q < b) by (apply Hup; lra). lia.
  - lia.
  - apply Qgt_alt in E.
    assert (Qfloor q < b) by (apply Hup; lra). lia.
Qed.

Lemma binade_le_8 (x : Q) : (0 < x <= 255)%Q -> binade x <= 8.
Proof.
  intros [Hpos Hle].
  assert (He : Z.log2 (Z.abs (Qnum x)) - Z.log2 (Zpos (Qden x)) <= 8).
  { destruct x as [n d]. unfold Qlt, Qle in Hpos, Hle. cbn [Qnum Qden] in *.
    assert (Hn : 0 < n) by lia.
    rewrite Z.abs_eq by lia.
    assert (Hm : Z.log2 n <= Z.log2 (Zpos d * 2 ^ 8)).
    { apply Z.log2_le_mono. lia. }
    rewrite Z.log2_mul_pow2 in Hm by lia. lia. }
  unfold binade.
  destruct (Qle_bool _ _); lia.
Qed.

(** A product between 0 and 255 is rounded to a double between 0 and 255. *)
Lemma toDouble_byte_range (x : Q) :
  (0 <= x <= 255)%Q -> exists p, toDouble x = Dbl p /\ (0 <= p <= 255)%Q.
Proof.
  intros [Hlo Hhi]. unfold toDouble.
  destruct (Qeq_bool x 0) eqn:E0.
  { exists 0%Q. split; [reflexivity|lra]. }
  assert (Hpos : (0 < x)%Q).
  { apply Qeq_bool_neq in E0. lra. }
  pose proof (binade_le_8 x (conj Hpos Hhi)) as Hb.
  set (e := Z.max (binade x) (-1022) - 52).
  assert (Hneg : e < 0) by (unfold e; lia).
  assert (Hulp : pow2 e = 1 # Z.to_pos (2 ^ (- e))).
  { unfold pow2. destruct (0 <=? e) eqn:E; [apply Z.leb_le in E; lia|reflexivity]. }
  rewrite Hulp. clearbody e.
  set (P := Z.to_pos (2 ^ (- e))).
  set (n := roundHalfEven (x / (1 # P))).
  assert (Hn : 0 <= n <= 255 * Zpos P).
  { apply roundHalfEven_between.
    destruct x as [a d]. unfold Qle, Qlt in *. cbn in *. nia. }
  set (r := Qred (inject_Z n * (1 # P))).
  assert (Hr : (0 <= r <= 255)%Q).
  { unfold r. rewrite Qred_correct.
    unfold Qle. cbn. nia. }
  assert (Hbig : (255 < pow2 1024)%Q) by (vm_compute; reflexivity).
  destruct (Qle_bool (pow2 1024) (Qabs r)) eqn:Einf.
  { apply Qle_bool_imp_le in Einf.
    rewrite Qabs_pos in Einf by apply Hr. lra. }
  exists r. split; [reflexivity|exact Hr].
Qed.

Lemma channel_in_byte (c : option Q) :
  inUnit c -> exists k, channel c = Int k /\ 0 <= k <= 255.
Proof.
  unfold inUnit, channel. intros H.
  destruct (toDouble_byte_range (match c with Some v => v | None => 0 end * 255))
    as (p & -> & Hlo & Hhi).
  { destruct c as [v|]; lra. }
  exists (Math_round p). split; [reflexivity|].
  unfold Math_round.
  assert (Hq : (1 # 2 <= p + (1 # 2) <= 255 + (1 # 2))%Q) by lra.
  destruct Hq as [Hl Hu].
  apply Qfloor_resp_le in Hl, Hu.
  change (Qfloor (1 # 2)) with 0 in Hl.
  change (Qfloor (255 + (1 # 2))) with 255 in Hu. lia.
Qed.

Lemma twoHexDigits_byte (v : Z) : 0 <= v <= 255 -> twoHexDigits v = true.
Proof.
  intros Hv.
  assert (Hall : forallb twoHexDigits (map Z.of_nat (seq 0 256)) = true)
    by (vm_compute; reflexivity).
  rewrite forallb_forall in Hall. apply Hall.
  apply in_map_iff. exists (Z.to_nat v). split; [lia|].
  apply in_seq. lia.
Qed.

(** The product is rounded before [Math.round]: for the double written
    0.00196078431372549 the exact product is below one half, the double
    product is one half, and the channel is 1. *)
Example channel_rounds_the_product :
  toDouble (282578800148737 # 144115188075855872)
  = Dbl (282578800148737 # 144115188075855872)
  /\ Math_round ((282578800148737 # 144115188075855872) * 255) = 0
  /\ toDouble ((282578800148737 # 144115188075855872) * 255) = Dbl (1 # 2)
  /\ channel (Some (282578800148737 # 144115188075855872)) = Int 1.
Proof. repeat split; vm_compute; reflexivity. Qed.

(** Outside the range of a byte the string has another shape. *)
Example colorToHex_out_of_range :
  colorToHex (Some (mkColor (Some 2%Q) None (Some (-1 # 1)%Q))) = Some "#1fe00-ff".
Proof. vm_compute. reflexivity. Qed.

(** X20 (the form of a colour string): [colorToHex] gives no string for
    an absent colour; for a colour whose channels are absent or between 0
    and 1 it gives # followed by exactly six lower-case hexadecimal
    digits; and the double nearest to k/255 is a channel value that comes
    back as k, for every k from 0 to 255. *)
Theorem colorToHex_format :
  colorToHex None = None
  /\ (forall c : Color,
        inUnit (c_r c) -> inUnit (c_g c) -> inUnit (c_b c) ->
        exists h, colorToHex (Some c) = Some (String "#" h)
                  /\ String.length h = 6%nat /\ allHex h = true)
  /\ (forall k : Z, 0 <= k <= 255 ->
        exists d, toDouble (k # 255) = Dbl d /\ channel (Some d) = Int k).
Proof.
  split; [reflexivity|]. split.
  - intros c Hr Hg Hb.
    destruct (channel_in_byte _ Hr) as (r & Er & Br).
    destruct (channel_in_byte _ Hg) as (g & Eg & Bg).
    destruct (channel_in_byte _ Hb) as (b & Eb & Bb).
    pose proof (twoHexDigits_byte _ Br) as Tr.
    pose proof (twoHexDigits_byte _ Bg) as Tg.
    pose proof (twoHexDigits_byte _ Bb) as Tb.
    unfold colorToHex. rewrite Er, Eg, Eb.
    cbn [map String.concat numberToString16].
    unfold twoHexDigits in Tr, Tg, Tb.
    destruct (padStart2 (toString16 r)) as [|r1 [|r2 [|]]];
      try discriminate.
    destruct (padStart2 (toString16 g)) as [|g1 [|g2 [|]]];
      try discriminate.
    destruct (padStart2 (toString16 b)) as [|b1 [|b2 [|]]];
      try discriminate.
    eexists. split; [reflexivity|]. split; [reflexivity|].
    apply andb_true_iff in Tr as [R1 R2], Tg as [G1 G2], Tb as [B1 B2].
    cbv -[isHexDigit]. rewrite R1, R2, G1, G2, B1, B2.
    reflexivity.
  - intros k Hk.
    assert (Hall : forallb
                     (fun k =>
                        match toDouble (k # 255) with
                        | Dbl d =>
                            match channel (Some d) with
                            | Int k' => k' =? k
                            | _ => false
                            end
                        | DblInfinity _ => false
                        end)
                     (map Z.of_nat (seq 0 256)) = true)
      by (vm_compute; reflexivity).
    rewrite forallb_forall in Hall.
    specialize (Hall k).
    destruct (toDouble (k # 255)) as [d|]; cycle 1.
    { exfalso. assert (false = true); [|discriminate].
      apply Hall. apply in_map_iff. exists (Z.to_nat k). split; [lia|].
      apply in_seq. lia. }
    exists d. split; [reflexivity|].
    destruct (channel (Some d)) as [| |k'].
    1-2: exfalso; assert (false = true); [|discriminate];
         apply Hall; apply in_map_iff; exists (Z.to_nat k); (split; [lia|]);
         apply in_seq; lia.
    f_equal. apply Z.eqb_eq. apply Hall.
    apply in_map_iff. exists (Z.to_nat k). split; [lia|].
    apply in_seq. lia.
Qed.

Lemma colorToHex_format_witness :
  exists h, colorToHex (Paint.color (solid 22 119 255)) = Some (String "#" h)
            /\ String.length h = 6%nat /\ allHex h = true.
Proof.
  apply (proj1 (proj2 colorToHex_format)
           (mkColor (Some (22 # 255)) (Some (119 # 255)) (Some (255 # 255)))).
  - split; vm_compute; discriminate.
  - split; vm_compute; discriminate.
  - split; vm_compute; discriminate.
Defined.

(** * Further properties of the sorted traversal *)

Lemma insertSorted_head (cmp : string -> string -> Z) (x : Node.t) (l : list Node.t) :
  Forall (notAfter cmp x) l -> insertSorted cmp x l = x :: l.
Proof.
  intros H. destruct l as [|y l]; [reflexivity|]. cbn [insertSorted].
  apply Forall_cons in H as [Hy _]. unfold notAfter in Hy.
  assert (E : (0 <? comparePosition cmp x y) = false) by (apply Z.ltb_ge; exact Hy).
  rewrite E. reflexivity.
Qed.

Lemma sortChildren_of_sorted (cmp : string -> string -> Z) (l : list Node.t) :
  StronglySorted (notAfter cmp) l -> sortChildren cmp l = l.
Proof.
  induction 1 as [|x l Hs IH Hx]; cbn [sortChildren]; [reflexivity|].
  rewrite IH. apply insertSorted_head. exact Hx.
Qed.

(** X21 (sorting again changes nothing): with a consistent comparator a
    child list that is already in order is left as it is, so sorting the
    same array a second time, as [printTree] does when it meets a key
    again, gives the same order. *)
Theorem sorting_twice_is_sorting_once
    (localeCompare : string -> string -> Z) (l : list Node.t) :
  consistent localeCompare ->
  sortChildren localeCompare (sortChildren localeCompare l)
  = sortChildren localeCompare l.
Proof.
  intros Hc. apply sortChildren_of_sorted, sortChildren_sorted. exact Hc.
Qed.

Lemma sorting_twice_is_sorting_once_witness :
  sortChildren lexCompare (sortChildren lexCompare [orderFirst; orderSecond])
  = sortChildren lexCompare [orderFirst; orderSecond].
Proof.
  apply (sorting_twice_is_sorting_once lexCompare [orderFirst; orderSecond]).
  exact lexCompare_consistent.
Defined.

Lemma sorted_permutation_unique (R : Node.t -> Node.t -> Prop) (l1 : list Node.t) :
  forall l2,
    StronglySorted R l1 -> StronglySorted R l2 -> Permutation l1 l2 ->
    (forall a b, a ∈ l1 -> b ∈ l1 -> R a b -> R b a -> a = b) ->
    l1 = l2.
Proof.
  induction l1 as [|x l1 IH]; intros l2 S1 S2 P Hanti.
  - apply Permutation_nil in P. congruence.
  - destruct l2 as [|y l2].
    { apply Permutation_sym, Permutation_nil in P. discriminate. }
    apply StronglySorted_inv in S1 as [S1 Hx].
    apply StronglySorted_inv in S2 as [S2 Hy].
    rewrite Forall_forall in Hx, Hy.
    assert (Exy : x = y).
    { assert (Hxin : List.In x (y :: l2))
        by (apply (Permutation_in _ P); left; reflexivity).
      assert (Hyin : List.In y (x :: l1))
        by (apply (Permutation_in _ (Permutation_sym P)); left; reflexivity).
      destruct Hxin as [-> | Hxin]; [reflexivity|].
      destruct Hyin as [-> | Hyin]; [reflexivity|].
      apply Hanti.
      - left.
      - right. apply list_elem_of_In. exact Hyin.
      - apply Hx. apply list_elem_of_In. exact Hyin.
      - apply Hy. apply list_elem_of_In. exact Hxin. }
    subst y. f_equal. apply IH; try assumption.
    + eapply Permutation_cons_inv. exact P.
    + intros a b Ha Hb. apply Hanti; right; assumption.
Qed.

(** X22 (arrival order does not matter without ties): with a consistent
    comparator, two child lists that hold the same records in different
    arrival orders are traversed in the same order, provided no two
    different records of the list compare as equal. *)
Theorem sorted_order_independent_of_arrival
    (localeCompare : string -> string -> Z) (l l' : list Node.t) :
  consistent localeCompare ->
  Permutation l l' ->
  (forall a b, a ∈ l -> b ∈ l -> comparePosition localeCompare a b = 0 -> a = b) ->
  sortChildren localeCompare l = sortChildren localeCompare l'.
Proof.
  intros Hc P Hties.
  apply (sorted_permutation_unique (notAfter localeCompare)).
  - apply sortChildren_sorted. exact Hc.
  - apply sortChildren_sorted. exact Hc.
  - rewrite !sortChildren_Permutation. exact P.
  - intros a b Ha Hb Hab Hba.
    apply list_elem_of_In in Ha, Hb.
    apply (Permutation_in _ (sortChildren_Permutation localeCompare l)) in Ha, Hb.
    apply Hties; try (apply list_elem_of_In; assumption).
    unfold notAfter in Hab, Hba.
    destruct (proj1 Hc (positionKey b) (positionKey a)) as [_ F].
    fold (comparePosition localeCompare b a) in F.
    fold (comparePosition localeCompare a b) in F.
    destruct (Z.lt_ge_cases (comparePosition localeCompare a b) 0) as [Hlt | Hge];
      [specialize (F Hlt) |]; lia.
Qed.

Lemma sorted_order_independent_of_arrival_witness :
  sortChildren lexCompare [orderFirst; orderSecond]
  = sortChildren lexCompare [orderSecond; orderFirst].
Proof.
  apply (sorted_order_independent_of_arrival lexCompare
           [orderFirst; orderSecond] [orderSecond; orderFirst]).
  - exact lexCompare_consistent.
  - apply perm_swap.
  - intros a b Ha Hb.
    apply list_elem_of_In in Ha, Hb. cbn [In] in Ha, Hb.
    destruct Ha as [<- | [<- | []]]; destruct Hb as [<- | [<- | []]];
      vm_compute; intros H; try reflexivity; discriminate H.
Defined.

(** ** [printTree] *)

Lemma forEachChild_returns (visit : Node.t -> option (list string))
    (children : list Node.t) :
  (forall c, c ∈ children -> exists lines, visit c = Some lines) ->
  exists lines, forEachChild visit children = Some lines.
Proof.
  induction children as [|c cs IH]; intros H; cbn [forEachChild].
  - eauto.
  - destruct (H c) as [lines ->]; [left|].
    destruct IH as [lines' ->].
    + intros c' Hc'. apply H. right. exact Hc'.
    + eauto.
Qed.

Lemma forEachChild_stuck (visit : Node.t -> option (list string))
    (children : list Node.t) (c : Node.t) :
  c ∈ children -> visit c = None -> forEachChild visit children = None.
Proof.
  intros Hc Hv.
  induction children as [|c' cs IH]; [inversion Hc|].
  cbn [forEachChild].
  apply elem_of_cons in Hc as [<- | Hc].
  - rewrite Hv. reflexivity.
  - rewrite (IH Hc). destruct (visit c'); reflexivity.
Qed.

Lemma sortedChildren_elem (localeCompare : string -> string -> Z)
    (g : Graph) (n c : Node.t) :
  c ∈ sortedChildren localeCompare g n
  <-> exists key, keyOf n = Some key /\ c ∈ childrenOf g key.
Proof.
  unfold sortedChildren, keyOf.
  destruct (guidKey (Node.guid n)) as [key|].
  - rewrite (sortChildren_Permutation localeCompare (childrenOf g key)).
    split.
    + intros H. exists key. auto.
    + intros (key' & [= <-] & H). exact H.
  - split.
    + intros H. inversion H.
    + intros (key' & [=] & _).
Qed.

(** With an integer limit the call returns, whatever the graph. *)
Lemma printTree_limited_returns (localeCompare : string -> string -> Z)
    (getNodeInfo : Node.t -> nat -> string) (g : Graph) (d : Z) :
  forall (fuel : nat) (n : Node.t) (indent : nat),
    (Z.to_nat (d + 1 - Z.of_nat indent) < fuel)%nat ->
    exists lines,
      printTree localeCompare getNodeInfo fuel g n indent (Int d) = Some lines.
Proof.
  induction fuel as [|fuel IH]; intros n indent Hf; [lia|].
  cbn [printTree beyond].
  destruct (d <? Z.of_nat indent) eqn:Eb; [eauto|].
  apply Z.ltb_ge in Eb.
  destruct (forEachChild_returns
              (fun child => printTree localeCompare getNodeInfo fuel g child
                              (indent + 1) (Int d))
              (sortedChildren localeCompare g n)) as [lines ->]; [|eauto].
  intros c _. apply IH. lia.
Qed.

(** Without a limit the call on a record that is its own child does not
    return. *)
Lemma printTree_unlimited_loops (localeCompare : string -> string -> Z)
    (getNodeInfo : Node.t -> nat -> string) (g : Graph) (n : Node.t)
    (key : string) (depth : Integer) :
  (forall i, beyond i depth = false) ->
  keyOf n = Some key -> n ∈ childrenOf g key ->
  forall (fuel indent : nat),
    printTree localeCompare getNodeInfo fuel g n indent depth = None.
Proof.
  intros Hd Hk Hc.
  induction fuel as [|fuel IH]; intros indent; [reflexivity|].
  cbn [printTree]. rewrite Hd.
  rewrite (forEachChild_stuck _ _ n); [reflexivity| |apply IH].
  apply sortedChildren_elem. eauto.
Qed.

(** On parent links without a cycle the call returns, limit or not. *)
Lemma printTree_ranked_returns (localeCompare : string -> string -> Z)
    (getNodeInfo : Node.t -> nat -> string) (nodes : list Node.t)
    (rank : string -> nat) (depth : Integer) :
  ranked nodes rank ->
  forall (fuel : nat) (n : Node.t) (indent : nat),
    (0 < fuel)%nat ->
    (forall key, keyOf n = Some key -> (rank key + 1 < fuel)%nat) ->
    exists lines,
      printTree localeCompare getNodeInfo fuel (buildGraph nodes) n indent depth
      = Some lines.
Proof.
  intros Hr.
  induction fuel as [|fuel IH]; intros n indent Hpos Hf; [lia|].
  cbn [printTree].
  destruct (beyond indent depth); [eauto|].
  destruct (forEachChild_returns
              (fun child => printTree localeCompare getNodeInfo fuel
                              (buildGraph nodes) child (indent + 1) depth)
              (sortedChildren localeCompare (buildGraph nodes) n))
    as [lines ->]; [|eauto].
  intros c Hc.
  apply sortedChildren_elem in Hc as (key & Hk & Hc).
  rewrite childrenOf_buildGraph in Hc.
  apply list_elem_of_In, filter_In in Hc as [Hin Hp].
  apply list_elem_of_In in Hin.
  unfold hasParent in Hp. apply bool_decide_eq_true in Hp.
  specialize (Hf key Hk).
  apply IH; [lia|].
  intros ck Hck.
  pose proof (Hr c key ck Hin Hp Hck). lia.
Qed.

(** More fuel does not change what a call returns. *)
Lemma forEachChild_ext (visit visit' : Node.t -> option (list string))
    (children : list Node.t) :
  (forall c lines, visit c = Some lines -> visit' c = Some lines) ->
  forall out, forEachChild visit children = Some out ->
              forEachChild visit' children = Some out.
Proof.
  intros H.
  induction children as [|c cs IH]; intros out; cbn [forEachChild]; [auto|].
  destruct (visit c) as [lines|] eqn:Ev; [|discriminate].
  rewrite (H _ _ Ev).
  destruct (forEachChild visit cs) as [lines'|]; [|discriminate].
  rewrite (IH _ eq_refl). auto.
Qed.

Lemma printTree_mono (localeCompare : string -> string -> Z)
    (getNodeInfo : Node.t -> nat -> string) (g : Graph) (depth : Integer) :
  forall (fuel fuel' : nat) (n : Node.t) (indent : nat) (lines : list string),
    (fuel <= fuel')%nat ->
    printTree localeCompare getNodeInfo fuel g n indent depth = Some lines ->
    printTree localeCompare getNodeInfo fuel' g n indent depth = Some lines.
Proof.
  induction fuel as [|fuel IH]; intros fuel' n indent lines Hle; [discriminate|].
  destruct fuel' as [|fuel']; [lia|].
  cbn [printTree].
  destruct (beyond indent depth); [auto|].
  destruct (forEachChild _ _) as [out|] eqn:E; [|discriminate].
  intros [= <-].
  erewrite forEachChild_ext; [reflexivity| |exact E].
  intros c l Hc. cbv beta in *. eapply IH; [|exact Hc]. lia.
Qed.

(** X23 (the depth limit of [printTree]): with an integer for [maxDepth]
    the call returns on every graph, parent cycles included, after at most
    [maxDepth + 2 - indent] nested calls; when the test [indent > depth]
    never holds, as for [NaN], which [parseInt] gives for an argument that
    is not a number, the call on a record listed among its own children
    never returns; on records whose parent links have no cycle it returns
    whatever the limit; and a call that returns gives the same lines with
    any larger bound on the nesting. *)
Theorem printTree_depth_limit (localeCompare : string -> string -> Z)
    (getNodeInfo : Node.t -> nat -> string) :
  (forall (g : Graph) (n : Node.t) (indent : nat) (d : Z) (fuel : nat),
      (Z.to_nat (d + 1 - Z.of_nat indent) < fuel)%nat ->
      exists lines,
        printTree localeCompare getNodeInfo fuel g n indent (Int d) = Some lines)
  /\ (forall (g : Graph) (n : Node.t) (key : string) (depth : Integer)
             (fuel indent : nat),
        (forall i, beyond i depth = false) ->
        keyOf n = Some key -> n ∈ childrenOf g key ->
        printTree localeCompare getNodeInfo fuel g n indent depth = None)
  /\ (forall (nodes : list Node.t) (rank : string -> nat) (depth : Integer)
             (n : Node.t) (indent fuel : nat),
        ranked nodes rank ->
        (0 < fuel)%nat ->
        (forall key, keyOf n = Some key -> (rank key + 1 < fuel)%nat) ->
        exists lines,
          printTree localeCompare getNodeInfo fuel (buildGraph nodes) n indent depth
          = Some lines)
  /\ (forall (g : Graph) (depth : Integer) (fuel fuel' : nat) (n : Node.t)
             (indent : nat) (lines : list string),
        (fuel <= fuel')%nat ->
        printTree localeCompare getNodeInfo fuel g n indent depth = Some lines ->
        printTree localeCompare getNodeInfo fuel' g n indent depth = Some lines).
Proof.
  split; [|split; [|split]].
  - intros g n indent d fuel Hf.
    apply printTree_limited_returns. exact Hf.
  - intros g n key depth fuel indent Hd Hk Hc.
    apply (printTree_unlimited_loops localeCompare getNodeInfo g n key depth Hd Hk Hc).
  - intros nodes rank depth n indent fuel Hr Hpos Hf.
    apply (printTree_ranked_returns localeCompare getNodeInfo nodes rank depth Hr);
      assumption.
  - intros g depth fuel fuel' n indent lines Hle H.
    apply (printTree_mono localeCompare getNodeInfo g depth fuel fuel'); assumption.
Qed.

Lemma printTree_depth_limit_witness :
  (exists lines,
      printTree lexCompare (fun n _ => Node.type n) 3 (buildGraph selfParentIcon)
        loopFrame 0 (Int 1) = Some lines)
  /\ printTree lexCompare (fun n _ => Node.type n) 3 (buildGraph selfParentIcon)
       loopFrame 0 NaN = None.
Proof.
  split.
  - apply (proj1 (printTree_depth_limit lexCompare (fun n _ => Node.type n))
             (buildGraph selfParentIcon) loopFrame 0%nat 1 3%nat).
    vm_compute. lia.
  - apply (proj1 (proj2 (printTree_depth_limit lexCompare (fun n _ => Node.type n)))
             (buildGraph selfParentIcon) loopFrame "0:1" NaN 3%nat 0%nat).
    + intros i. reflexivity.
    + reflexivity.
    + vm_compute. left.
Defined.

(** The lines for the frame that is its own parent, limit 1: the frame,
    below it the frame again with the mark for its two children, which
    are beyond the limit, and then the vector, which has none. *)
Example printTree_self_parent :
  printTree lexCompare (fun n indent => indentation indent +:+ Node.type n) 3
    (buildGraph selfParentIcon) loopFrame 0 (Int 1)
  = Some ["FRAME"; "  FRAME"; "    ... (2 children)"; "  VECTOR"].
Proof. vm_compute. reflexivity. Qed.

(** * [collectVectors] *)

Lemma appendVectors_inv (collect : string -> option (list VectorInfo))
    (cs : list Node.t) :
  forall results out,
    appendVectors collect cs results = Some out ->
    exists found,
      out = results ++ found
      /\ forall e, e ∈ found ->
                   exists c ck vs, c ∈ cs /\ keyOf c = Some ck
                                   /\ collect ck = Some vs /\ e ∈ vs.
Proof.
  induction cs as [|c cs IH]; intros results out H; cbn [appendVectors] in H.
  - injection H as <-. exists []. rewrite app_nil_r. split; [reflexivity|].
    intros e He. apply elem_of_nil in He. contradiction.
  - destruct (guidKey (Node.guid c)) as [ck|] eqn:Ek.
    + destruct (collect ck) as [vs|] eqn:Ec; [|discriminate].
      apply IH in H as (found & -> & Hall).
      exists (vs ++ found). rewrite app_assoc. split; [reflexivity|].
      intros e He. apply elem_of_app in He as [He | He].
      * exists c, ck, vs. split_and!; [left | exact Ek | exact Ec | exact He].
      * destruct (Hall e He) as (c' & ck' & vs' & Hc & Hk & Hv & Hin).
        exists c', ck', vs'. split_and!; [right; exact Hc | assumption..].
    + apply IH in H as (found & -> & Hall). exists found. split; [reflexivity|].
      intros e He. destruct (Hall e He) as (c' & ck' & vs' & Hc & Hk & Hv & Hin).
      exists c', ck', vs'. split_and!; [right; exact Hc | assumption..].
Qed.

Lemma appendVectors_returns (collect : string -> option (list VectorInfo))
    (cs : list Node.t) :
  (forall c ck, c ∈ cs -> keyOf c = Some ck -> is_Some (collect ck)) ->
  forall results, is_Some (appendVectors collect cs results).
Proof.
  induction cs as [|c cs IH]; intros Hall results; cbn [appendVectors]; [eauto|].
  assert (Hrest : forall c0 ck, c0 ∈ cs -> keyOf c0 = Some ck -> is_Some (collect ck))
    by (intros c0 ck Hc; apply Hall; right; exact Hc).
  destruct (guidKey (Node.guid c)) as [ck|] eqn:Ek; [|apply IH; exact Hrest].
  destruct (Hall c ck (list_elem_of_here _ _) Ek) as [vs ->].
  apply IH. exact Hrest.
Qed.

Lemma collectVectors_entries (fuel : nat) (g : Graph) :
  forall key depth vs,
    collectVectors fuel g key depth = Some vs ->
    forall e, e ∈ vs ->
              v_type e = "VECTOR"
              /\ depth <= v_depth e
              /\ exists n, nodeMap g !! v_guid e = Some n
                           /\ Node.type n = "VECTOR"
                           /\ e = vectorInfoOf n (v_guid e) (v_depth e).
Proof.
  induction fuel as [|fuel IH]; intros key depth vs H e He; [discriminate|].
  cbn [collectVectors] in H.
  destruct (nodeMap g !! key) as [n|] eqn:En.
  - apply appendVectors_inv in H as (found & -> & Hall).
    apply elem_of_app in He as [He | He].
    + destruct (bool_decide (Node.type n = "VECTOR")) eqn:Et.
      * apply list_elem_of_singleton in He. subst e. apply bool_decide_eq_true in Et.
        cbn [vectorInfoOf v_type v_depth v_guid]. split; [exact Et|].
        split; [lia|]. exists n. auto.
      * apply elem_of_nil in He. contradiction.
    + destruct (Hall e He) as (c & ck & vs' & _ & _ & Hv & Hin).
      destruct (IH _ _ _ Hv e Hin) as (Ht & Hd & Hn).
      split; [exact Ht|]. split; [lia | exact Hn].
  - injection H as <-. apply elem_of_nil in He. contradiction.
Qed.

(** X24 ([collectVectors]): every entry it returns describes a VECTOR
    record of the node map, found at the depth given or deeper; a key that
    is not in the node map gives the empty list; and on input whose parent
    links go strictly down some rank it returns as soon as it is given
    more levels than the rank of the key. *)
Theorem collectVectors_finds_vectors (g : Graph) (key : string) (depth : Z) :
  (forall fuel vs e,
      collectVectors fuel g key depth = Some vs -> e ∈ vs ->
      v_type e = "VECTOR"
      /\ depth <= v_depth e
      /\ exists n, nodeMap g !! v_guid e = Some n
                   /\ Node.type n = "VECTOR"
                   /\ e = vectorInfoOf n (v_guid e) (v_depth e))
  /\ (nodeMap g !! key = None ->
      forall fuel, collectVectors (S fuel) g key depth = Some [])
  /\ (forall nodes rank fuel,
        g = buildGraph nodes -> ranked nodes rank -> (rank key < fuel)%nat ->
        exists vs, collectVectors fuel g key depth = Some vs).
Proof.
  split; [|split].
  - intros fuel vs e H He. eapply collectVectors_entries; eassumption.
  - intros Hn fuel. cbn [collectVectors]. rewrite Hn. reflexivity.
  - intros nodes rank fuel -> Hr. revert key depth.
    induction fuel as [|fuel IH]; intros key depth Hlt; [lia|].
    cbn [collectVectors].
    destruct (nodeMap (buildGraph nodes) !! key) as [n|]; [|eauto].
    apply appendVectors_returns. intros c ck Hc Hk. apply IH.
    rewrite childrenOf_buildGraph in Hc.
    apply list_elem_of_In, filter_In in Hc as [Hin Hp].
    apply list_elem_of_In in Hin. apply bool_decide_eq_true in Hp.
    specialize (Hr c key ck Hin Hp Hk). lia.
Qed.

Example collectVectors_sample :
  option_map (map (fun e => (v_guid e, v_fills e, v_depth e)))
    (collectVectors 3 (buildGraph iconOverBackground) "0:1" 0)
  = Some [("0:3", [Some "#1677ff"], 2)].
Proof. vm_compute. reflexivity. Qed.

Lemma sum_countVectors_app (l1 l2 : list Shape.t) :
  fold_right (fun c acc => countVectors c + acc) 0 (l1 ++ l2)
  = fold_right (fun c acc => countVectors c + acc) 0 l1
    + fold_right (fun c acc => countVectors c + acc) 0 l2.
Proof.
  induction l1 as [|c l1 IH]; cbn [app fold_right]; [lia | rewrite IH; lia].
Qed.

Lemma push_vs_append (build : string -> option (option Shape.t))
    (collect : string -> option (list VectorInfo)) (cs : list Node.t) :
  (forall ck s vs, build ck = Some (Some s) -> collect ck = Some vs ->
                   countVectors s <= Z.of_nat (length vs)) ->
  forall acc out results found,
    pushChildren build cs acc = Some out ->
    appendVectors collect cs results = Some found ->
    fold_right (fun c a => countVectors c + a) 0 out + Z.of_nat (length results)
    <= fold_right (fun c a => countVectors c + a) 0 acc + Z.of_nat (length found).
Proof.
  intros Hrel. induction cs as [|c cs IH]; intros acc out results found Hp Ha;
    cbn [pushChildren appendVectors] in Hp, Ha.
  - injection Hp as <-. injection Ha as <-. lia.
  - destruct (guidKey (Node.guid c)) as [ck|]; [|eapply IH; eassumption].
    destruct (collect ck) as [vs|] eqn:Ec; [|discriminate].
    destruct (build ck) as [[s|]|] eqn:Eb; [| |discriminate].
    + specialize (IH _ _ _ _ Hp Ha). specialize (Hrel ck s vs Eb Ec).
      rewrite sum_countVectors_app in IH. rewrite length_app in IH.
      cbn [fold_right] in IH. lia.
    + specialize (IH _ _ _ _ Hp Ha). rewrite length_app in IH. lia.
Qed.

Lemma count_le_collected (fuel : nat) :
  forall (fuel' : nat) (g : Graph) (key : string) (d d' : Z)
         (t : Shape.t) (vs : list VectorInfo),
    buildShapeTree fuel g key d = Some (Some t) ->
    collectVectors fuel' g key d' = Some vs ->
    countVectors t <= Z.of_nat (length vs).
Proof.
  induction fuel as [|fuel IH]; intros fuel' g key d d' t vs Hb Hc; [discriminate|].
  apply buildShapeTree_inv in Hb as (f & n & children & [= <-] & Hn & _ & Hp & ->).
  destruct fuel' as [|fuel']; [discriminate|].
  cbn [collectVectors] in Hc. rewrite Hn in Hc.
  pose proof (push_vs_append _ _ (childrenOf g key)
                (fun ck s vs' Hs Hv => IH fuel' g ck (d + 1) (d' + 1) s vs' Hs Hv)
                _ _ _ _ Hp Hc) as Hle.
  cbn [countVectors shapeOf Shape.children]. rewrite fold_countVectors.
  cbn [fold_right] in Hle.
  unfold typeIs. cbn [Shape.type].
  destruct (bool_decide (Node.type n = "VECTOR")); cbn [length] in Hle; lia.
Qed.

(** X25 (two ways of counting vectors): when both are returned for the
    same key, the vector count of the shape tree is at most the number of
    entries [collectVectors] returns: the shape tree leaves out what lies
    under transparent background rectangles, [collectVectors] does not. *)
Theorem vector_count_at_most_collected
    (fuel fuel' : nat) (g : Graph) (key : string) (d d' : Z)
    (t : Shape.t) (vs : list VectorInfo) :
  buildShapeTree fuel g key d = Some (Some t) ->
  collectVectors fuel' g key d' = Some vs ->
  countVectors t <= Z.of_nat (length vs).
Proof.
  apply count_le_collected.
Qed.

Lemma vector_count_at_most_collected_witness :
  countVectors (shapeOf bgFrame "0:1" []) <= Z.of_nat (length
    [vectorInfoOf bgVector "0:3" 2]).
Proof.
  apply (vector_count_at_most_collected 3 3 (buildGraph iconOverBackground) "0:1" 0 0).
  - vm_compute. reflexivity.
  - vm_compute. reflexivity.
Defined.

(** * Rounding and the size test *)

Lemma Math_round_bounds (x : Q) :
  (inject_Z (Math_round x) - (1 # 2) <= x)%Q
  /\ (x < inject_Z (Math_round x) + (1 # 2))%Q.
Proof.
  unfold Math_round.
  pose proof (Qfloor_le (x + (1 # 2))) as Hlo.
  pose proof (Qlt_floor (x + (1 # 2))) as Hhi.
  rewrite inject_Z_plus in Hhi. change (inject_Z 1) with 1%Q in Hhi.
  split; lra.
Qed.

(** X26 (rounding and the 32 threshold): [Math.round] gives the integer
    within one half of its argument, halves going up; so the size test of
    the icon search lets a width or height through exactly when it is
    below 32.5. *)
Theorem rounded_size_threshold (x : Q) :
  ((inject_Z (Math_round x) - (1 # 2) <= x)%Q
   /\ (x < inject_Z (Math_round x) + (1 # 2))%Q)
  /\ ((Math_round x >? 32) = false <-> (x < 65 # 2)%Q).
Proof.
  pose proof (Math_round_bounds x) as [Hlo Hhi].
  split; [split; assumption|].
  rewrite Z.gtb_ltb, Z.ltb_ge. split.
  - intros Hle.
    assert (inject_Z (Math_round x) <= inject_Z 32)%Q
      by (rewrite <- Zle_Qle; exact Hle).
    change (inject_Z 32) with 32%Q in *. lra.
  - intros Hlt.
    destruct (Z.le_gt_cases (Math_round x) 32) as [Hle | Hgt]; [exact Hle|].
    assert (inject_Z 33 <= inject_Z (Math_round x))%Q
      by (rewrite <- Zle_Qle; lia).
    change (inject_Z 33) with 33%Q in *. lra.
Qed.

(** * The depth argument of [buildShapeTree] *)

(** X27 (depth and levels do not change the tree): the [depth] argument
    of [buildShapeTree] has no influence on what it returns, and a result
    returned within some number of nested calls is the result with any
    larger number; so the shape tree of a key is well defined. *)
Theorem shape_tree_independent_of_depth
    (fuel fuel' : nat) (g : Graph) (key : string) (d d' : Z) (r : option Shape.t) :
  (fuel <= fuel')%nat ->
  buildShapeTree fuel g key d = Some r ->
  buildShapeTree fuel' g key d' = Some r.
Proof.
  apply buildShapeTree_mono.
Qed.

Lemma shape_tree_independent_of_depth_witness :
  buildShapeTree 7 (buildGraph paintedIcon) "0:1" 5 = Some (Some paintedTree).
Proof.
  apply (shape_tree_independent_of_depth 2 7 (buildGraph paintedIcon) "0:1" 0 5).
  - lia.
  - vm_compute. reflexivity.
Defined.
